(** * Propel notebook transpiler and tensor front-end: a shallow embedding

    This development embeds [src/website/nb_transpiler.ts] and the methods
    of [src/tensor.ts] that have logic of their own, and proves the
    specification's statements about them, where they hold, together with
    further properties of the code.

    Conventions of the embedding.

    - A JavaScript exception that aborts the call (a [TypeError] from
      [this.index[i].method()] with [i] out of range, a failed [assert]) is
      the result [None]; the mutated editor is then no longer observable,
      since [transpile] does not catch anything.
    - The editor object is mutated in place by the source; here every
      operation takes the editor and returns the new one.
    - A JavaScript string is the [string] of its UTF-8 encoding.
      [Array.from] splits a string into its code points, one [SourceChar]
      each, while the offsets of the parser count UTF-16 code units: two for
      a code point outside the Basic Multilingual Plane (four bytes of
      UTF-8) and one for every other code point.
    - AST nodes are heap objects compared with [===]; every node carries its
      identity [nid]. *)

From Stdlib Require Import Ascii String.
From stdpp Require Import base tactics option list strings.

Local Open Scope string_scope.
Local Open Scope list_scope.
Local Open Scope nat_scope.

(** ** Texts and their code points *)

(** The number of bytes of the code point whose encoding starts with the
    byte [lead]. *)
Definition width (lead : ascii) : nat :=
  let n := nat_of_ascii lead in
  if n <? 192 then 1 else if n <? 224 then 2 else if n <? 240 then 3 else 4.

Fixpoint splitCodePoints (fuel : nat) (bytes : list ascii)
    : list (list ascii) :=
  match fuel, bytes with
  | S fuel, lead :: _ =>
      take (width lead) bytes :: splitCodePoints fuel (drop (width lead) bytes)
  | _, _ => []
  end.

(** [Array.from(s)]: the code points of [s], each a string of its own. *)
Definition codePoints (s : string) : list string :=
  string_of_list_ascii <$>
    splitCodePoints (String.length s) (list_ascii_of_string s).

(** [c.length] of a code point [c]: its UTF-16 code units, two outside the
    Basic Multilingual Plane. *)
Definition units (c : string) : nat :=
  match c with
  | String lead _ => if 240 <=? nat_of_ascii lead then 2 else 1
  | EmptyString => 0
  end.

(** [s.length], the unit in which the parser counts its offsets. *)
Definition utf16Length (s : string) : nat := sum_list (units <$> codePoints s).

(** ** Tagged source *)

(** [class SourceChar]: one character (a string holding one code point when
    made by [convert]), its position in the text it came from, and the
    file. *)
Record SourceChar := mkSourceChar {
  char : string;
  pos : option nat;
  file : option string
}.

Definition Source := list SourceChar.

(** [type SourceLike = string | Source]. *)
Inductive SourceLike :=
| Text (s : string)
| Tagged (s : Source).

(** [Array.from(source).map((char, pos) => new SourceChar(char, pos, file))]. *)
Definition tagChars (file : option string) (chars : list string) : Source :=
  imap (fun pos char => mkSourceChar char (Some pos) file) chars.

Definition convert (source : SourceLike) (file : option string) : Source :=
  match source with
  | Text s => tagChars file (codePoints s)
  | Tagged s => s
  end.

(** [source.map(char => char.char).join("")], as [text()] reads a source:
    its bytes. *)
Definition chars (s : Source) : list ascii :=
  concat ((fun c => list_ascii_of_string (char c)) <$> s).

(** ** Edit nodes *)

Module EditNode.

Record t := mk { current : Source }.

(** [[...convert(source), ...this.current]] *)
Definition prepend (source : SourceLike) (n : t) : t :=
  mk (convert source None ++ current n).

Definition append (source : SourceLike) (n : t) : t :=
  mk (current n ++ convert source None).

Definition replace (source : SourceLike) (n : t) : t :=
  mk (convert source None).

Definition clear (n : t) : t := mk [].

(** The constructor calls [this.replace(source)]. *)
Definition new (source : SourceLike) : t := mk (convert source None).

End EditNode.

(** ** The source editor (edit index) *)

Module SourceEditor.

Record t := mk { index : list EditNode.t }.

(** [get source()]: the concatenation of the nodes' fragments, in order. *)
Definition source (ed : t) : Source :=
  foldl (fun acc n => acc ++ EditNode.current n) [] (index ed).

(** [set source(source)]: one node per character, and a single empty node
    for the empty source. *)
Definition set_source (src : Source) : t :=
  if decide (0 < length src)
  then mk ((fun c => EditNode.new (Tagged [c])) <$> src)
  else mk [EditNode.new (Tagged [])].

(** [constructor(source, file)] *)
Definition new (src : SourceLike) (file : option string) : t :=
  set_source (convert src file).

Definition text (ed : t) : string :=
  string_of_list_ascii (chars (source ed)).

(** [stratify()]: rebuilds the index from the current source and returns
    the text. *)
Definition stratify (ed : t) : t * string :=
  let src := source ed in
  let ed' := set_source src in
  (ed', text ed').

Definition first (ed : t) : option EditNode.t := index ed !! 0.

(** [this.index[this.index.length - 1]]; [undefined] on an empty index. *)
Definition last (ed : t) : option EditNode.t :=
  match length (index ed) with
  | 0 => None
  | S k => index ed !! k
  end.

(** [this.index[i].method(...)]: a [TypeError] when [index[i]] is
    [undefined]. *)
Definition onNode (i : nat) (f : EditNode.t -> EditNode.t)
    (idx : list EditNode.t) : option (list EditNode.t) :=
  match idx !! i with
  | Some _ => Some (alter f i idx)
  | None => None
  end.

(** [for (let i = from; i < from + count; i++) this.index[i].clear()] *)
Fixpoint clearFrom (from count : nat) (idx : list EditNode.t)
    : option (list EditNode.t) :=
  match count with
  | 0 => Some idx
  | S k => idx' ← onNode from EditNode.clear idx; clearFrom (S from) k idx'
  end.

(** [replace(start, end, str)]: the loop runs for [i = start + 1] while
    [i < end]. *)
Definition replace (start end_ : nat) (str : SourceLike) (ed : t) : option t :=
  idx ← onNode start (EditNode.replace str) (index ed);
  idx' ← clearFrom (start + 1) (end_ - (start + 1)) idx;
  Some (mk idx').

(** [prepend({ start }, str)] *)
Definition prepend (start : nat) (str : SourceLike) (ed : t) : option t :=
  mk <$> onNode start (EditNode.prepend str) (index ed).

(** [append({ end }, str)]: [this.index[end - 1]]; for [end = 0] the index
    [-1] is out of range. *)
Definition append (end_ : nat) (str : SourceLike) (ed : t) : option t :=
  match end_ with
  | 0 => None
  | S k => mk <$> onNode k (EditNode.append str) (index ed)
  end.

End SourceEditor.

(** ** The syntax tree

    The parser ([acorn.parse]) is external; its trees are an input of the
    embedding.  Every node has [start] and [end] offsets into the parsed text
    and an identity.  Node kinds for which neither pass registers a visitor
    and whose [walk.base] visitor only calls [c] on the children in order are
    the constructor [Generic] (for example [Literal] with no children,
    [IfStatement] with test, consequent and alternate, [ForStatement],
    [BinaryExpression], [AssignmentExpression], [CallExpression],
    [ClassExpression] with its identifier, superclass and members). *)

Record NodeInfo := mkInfo {
  nid : nat;
  start : nat;
  end_ : nat
}.

Inductive DeclKind := KVar | KLet | KConst.

#[local] Set Warnings "-register-all".

Inductive node : Type :=
| Identifier (i : NodeInfo) (name : string)
| Generic (type : string) (i : NodeInfo) (children : list node)
| Program (i : NodeInfo) (body : list node)
| BlockStatement (i : NodeInfo) (body : list node)
| ExpressionStatement (i : NodeInfo) (expression : node)
| VariableDeclaration (i : NodeInfo) (kind : DeclKind) (declarations : list node)
| VariableDeclarator (i : NodeInfo) (id : node) (init : option node)
| FunctionDeclaration (i : NodeInfo) (id : node) (params : list node) (body : node)
| FunctionExpression (i : NodeInfo) (id : option node) (params : list node) (body : node)
| ArrowFunctionExpression (i : NodeInfo) (params : list node) (body : node)
| MethodDefinition (i : NodeInfo) (computed : bool) (key value : node)
| ClassDeclaration (i : NodeInfo) (id : node) (superClass : option node)
    (classBody : list node)
| ObjectPattern (i : NodeInfo) (properties : list node)
| Property (i : NodeInfo) (shorthand computed : bool) (key value : node)
| ArrayPattern (i : NodeInfo) (elements : list (option node))
| ImportDeclaration (i : NodeInfo) (specifiers : list node) (source : node)
| ImportSpecifier (i : NodeInfo) (imported local : node)
| ImportDefaultSpecifier (i : NodeInfo) (local : node)
| ImportNamespaceSpecifier (i : NodeInfo) (local : node).

Definition info (n : node) : NodeInfo :=
  match n with
  | Identifier i _ | Generic _ i _ | Program i _ | BlockStatement i _
  | ExpressionStatement i _ | VariableDeclaration i _ _
  | VariableDeclarator i _ _ | FunctionDeclaration i _ _ _
  | FunctionExpression i _ _ _ | ArrowFunctionExpression i _ _
  | MethodDefinition i _ _ _ | ClassDeclaration i _ _ _ | ObjectPattern i _
  | Property i _ _ _ _ | ArrayPattern i _ | ImportDeclaration i _ _
  | ImportSpecifier i _ _ | ImportDefaultSpecifier i _
  | ImportNamespaceSpecifier i _ => i
  end.

Definition nodeStart (n : node) : nat := start (info n).
Definition nodeEnd (n : node) : nat := end_ (info n).

(** [a === b] on nodes. *)
Definition sameNode (a b : node) : bool := Nat.eqb (nid (info a)) (nid (info b)).

(** [node.type === "Identifier"] *)
Definition isIdentifier (n : node) : bool :=
  match n with Identifier _ _ => true | _ => false end.

(** [node.name] inside a template string: the text [undefined] when the node
    has no [name]. *)
Definition nameText (n : node) : string :=
  match n with Identifier _ name => name | _ => "undefined" end.

(** [node.kind] *)
Definition kindText (k : DeclKind) : string :=
  match k with KVar => "var" | KLet => "let" | KConst => "const" end.

Definition importFn : string := "__import".
Definition globalVar : string := "__global".

(** A [for] loop over an array whose body may throw. *)
Section forEach.
Context {A S : Type} (f : A -> S -> option S).

Fixpoint forEach (l : list A) (s : S) : option S :=
  match l with
  | [] => Some s
  | x :: l' =>
      match f x s with
      | Some s' => forEach l' s'
      | None => None
      end
  end.
End forEach.

(** The last element of an array, [undefined] when it is empty. *)
Definition lastOf {A : Type} (l : list A) : option A :=
  List.last (Some <$> l) None.

(** [if (x) c(x, st, ...)] on an optional child. *)
Definition whenSome {A S : Type} (f : A -> S -> option S) (x : option A) (s : S)
    : option S :=
  match x with
  | Some a => f a s
  | None => Some s
  end.

(** ** The import rewrite pass

    [walk.recursive(body, { edit }, importVisitors)].  For a node [n] the
    call [c(n, st, override)] runs [visitor[override || n.type]].  The
    categories of [walk.base] ([Statement], [Expression], [Pattern],
    [ForInit], [ScopeBody], ...) skip through to the visitor of the node's
    kind, and [importVisitors] registers none of them, so the function below
    is indexed by the node alone. *)

Module ImportPass.

Import SourceEditor.

(** The loop of [ImportDeclaration] over [spec[1..]], threading [cur]. *)
Fixpoint commas (cur : node) (rest : list node) (edit : SourceEditor.t)
    : option (node * SourceEditor.t) :=
  match rest with
  | [] => Some (cur, edit)
  | s :: rest' =>
      edit' ← replace (nodeEnd cur) (nodeStart s) (Text ",") edit;
      commas s rest' edit'
  end.

(** The edits of the [ImportDeclaration] visitor, before it calls
    [walk.base.ImportDeclaration]. *)
Definition rewriteDeclaration (n : node) (spec : list node) (src : node)
    (edit : SourceEditor.t) : option SourceEditor.t :=
  match spec with
  | first :: rest =>
      edit ← replace (nodeStart n) (nodeStart first) (Text "var {") edit;
      '(cur, edit) ← commas first rest edit;
      edit ← replace (nodeEnd cur) (nodeStart src)
               (Text ("} = {_:await " ++ importFn ++ "(")) edit;
      replace (nodeEnd src) (nodeEnd n) (Text ")};") edit
  | [] =>
      edit ← replace (nodeStart n) (nodeStart src)
               (Text ("await " ++ importFn ++ "(")) edit;
      replace (nodeEnd src) (nodeEnd n) (Text ");") edit
  end.

Definition rewriteSpecifier (n imported local : node) (edit : SourceEditor.t)
    : option SourceEditor.t :=
  edit ← prepend (nodeStart n) (Text "_:{") edit;
  edit ← (if decide (nodeEnd imported < nodeStart local)
          then replace (nodeEnd imported) (nodeStart local) (Text ":") edit
          else Some edit);
  append (nodeEnd n) (Text "}") edit.

Definition rewriteDefaultSpecifier (local : node) (edit : SourceEditor.t)
    : option SourceEditor.t :=
  edit ← prepend (nodeStart local) (Text "_:{default:") edit;
  append (nodeEnd local) (Text "}") edit.

Definition rewriteNamespaceSpecifier (n local : node) (edit : SourceEditor.t)
    : option SourceEditor.t :=
  replace (nodeStart n) (nodeStart local) (Text "_:") edit.

Fixpoint walk (n : node) (edit : SourceEditor.t) {struct n}
    : option SourceEditor.t :=
  match n with
  | Identifier _ _ => Some edit
  | Generic _ _ children => forEach walk children edit
  | Program _ body => forEach walk body edit
  | BlockStatement _ body => forEach walk body edit
  | ExpressionStatement _ expression => walk expression edit
  | VariableDeclaration _ _ declarations => forEach walk declarations edit
  | VariableDeclarator _ id init =>
      match walk id edit with
      | Some edit => whenSome walk init edit
      | None => None
      end
  (* Do not recurse into functions etc. *)
  | FunctionDeclaration _ _ _ _ => Some edit
  | FunctionExpression _ _ _ _ => Some edit
  | ArrowFunctionExpression _ _ _ => Some edit
  | MethodDefinition _ _ _ _ => Some edit
  (* base.ClassDeclaration -> base.Class *)
  | ClassDeclaration _ id superClass classBody =>
      match walk id edit with
      | Some edit =>
          match whenSome walk superClass edit with
          | Some edit => forEach walk classBody edit
          | None => None
          end
      | None => None
      end
  (* base.ObjectPattern: c(prop.value, st, "Pattern") *)
  | ObjectPattern _ properties =>
      forEach (fun p edit =>
                 match p with
                 | Property _ _ _ _ value => walk value edit
                 | _ => None
                 end) properties edit
  (* base.Property *)
  | Property _ _ computed key value =>
      match (if computed then walk key edit else Some edit) with
      | Some edit => walk value edit
      | None => None
      end
  | ArrayPattern _ elements => forEach (whenSome walk) elements edit
  | ImportDeclaration _ specifiers source =>
      match rewriteDeclaration n specifiers source edit with
      | Some edit =>
          (* walk.base.ImportDeclaration *)
          match forEach walk specifiers edit with
          | Some edit => walk source edit
          | None => None
          end
      | None => None
      end
  | ImportSpecifier _ imported local => rewriteSpecifier n imported local edit
  | ImportDefaultSpecifier _ local => rewriteDefaultSpecifier local edit
  | ImportNamespaceSpecifier _ local => rewriteNamespaceSpecifier n local edit
  end.

End ImportPass.

(** ** The scope rewrite pass

    [walkRecursiveWithAncestors(body, state, evalScopeVisitors)].  The
    wrapped visitor of every kind and category pushes the node on
    [ancestors] unless it is already on top, runs the visitor and pops it
    again.  The list below holds the ancestors innermost first, so
    [ancestors[ancestors.length - 1]] is its head and
    [ancestors[ancestors.length - 2]] its second element. *)

Module ScopePass.

Import SourceEditor.

Record State := mkState {
  edit : SourceEditor.t;
  body : node;
  translatingVariableDeclaration : bool
}.

Definition setEdit (st : State) (e : SourceEditor.t) : State :=
  mkState e (body st) (translatingVariableDeclaration st).

Definition setTranslating (st : State) (b : bool) : State :=
  mkState (edit st) (body st) b.

(** [state.edit.method(...)] *)
Definition editing (f : SourceEditor.t -> option SourceEditor.t) (st : State)
    : option State :=
  setEdit st <$> f (edit st).

(** [const isNew = node !== ancestors[ancestors.length - 1];
    if (isNew) ancestors.push(node);] *)
Definition enter (n : node) (ancestors : list node) : list node :=
  match ancestors with
  | top :: _ => if sameNode n top then ancestors else n :: ancestors
  | [] => n :: ancestors
  end.

(** [ancestors[ancestors.length - 2] === state.body], after
    [assert(ancestors.length >= 2)]. *)
Definition parentIsBody (ancestors : list node) (st : State) : option bool :=
  match ancestors with
  | _ :: parent :: _ => Some (sameNode parent (body st))
  | _ => None
  end.

Definition isVar (k : DeclKind) : bool :=
  match k with KVar => true | _ => false end.

(** [decl.init] is truthy. *)
Definition hasInit (decl : node) : bool :=
  match decl with
  | VariableDeclarator _ _ (Some _) => true
  | _ => false
  end.

(** The body of the loop [for (decl of node.declarations)]. *)
Definition wrapDeclarator (decl : node) (e : SourceEditor.t)
    : option SourceEditor.t :=
  if hasInit decl then
    e ← prepend (nodeStart decl) (Text "(") e;
    append (nodeEnd decl) (Text ")") e
  else
    e ← prepend (nodeStart decl) (Text "(") e;
    append (nodeEnd decl) (Text "= undefined)") e.

(** Lines 236 to 262 of the [VariableDeclaration] visitor: the edits made
    when [translateDecl] holds. *)
Definition translateDeclaration (i : NodeInfo) (kind : DeclKind)
    (declarations : list node) (e : SourceEditor.t) : option SourceEditor.t :=
  e ← replace (start i) (start i + String.length (kindText kind) + 1)
        (Text "void (") e;
  e ← forEach wrapDeclarator declarations e;
  (* [decl] is the last declarator, [undefined] when there is none *)
  decl ← lastOf declarations;
  append (nodeEnd decl) (Text ")") e.

(** The edits of the [ObjectPattern] visitor for one property. *)
Definition rewriteProperty (p : node) (e : SourceEditor.t)
    : option SourceEditor.t :=
  match p with
  | Property _ shorthand _ _ value =>
      if shorthand then
        append (nodeEnd value)
          (Text (":" ++ globalVar ++ "." ++ nameText value)) e
      else if isIdentifier value then
        prepend (nodeStart value) (Text (globalVar ++ ".")) e
      else Some e
  | _ => None
  end.

(** The edits of the [ArrayPattern] visitor for one element; [e.type] on a
    hole ([null]) is a [TypeError]. *)
Definition rewriteElement (elt : option node) (e : SourceEditor.t)
    : option SourceEditor.t :=
  match elt with
  | Some x =>
      if isIdentifier x then prepend (nodeStart x) (Text (globalVar ++ ".")) e
      else Some e
  | None => None
  end.

Definition rewriteClass (i : NodeInfo) (id : node) (e : SourceEditor.t)
    : option SourceEditor.t :=
  e ← prepend (start i) (Text (globalVar ++ "." ++ nameText id ++ "=")) e;
  append (end_ i) (Text ");") e.

Definition rewriteFunction (i : NodeInfo) (id : node) (e : SourceEditor.t)
    : option SourceEditor.t :=
  e ← prepend (start i)
        (Text ("void (" ++ globalVar ++ "." ++ nameText id ++ "=")) e;
  append (end_ i) (Text ");") e.

Fixpoint walk (n : node) (ancestors : list node) (st : State) {struct n}
    : option State :=
  let ancestors := enter n ancestors in
  let c := fun child st => walk child ancestors st in
  match n with
  | Identifier _ _ => Some st
  | Generic _ _ children => forEach c children st
  | Program _ body => forEach c body st
  | BlockStatement _ body => forEach c body st
  | ExpressionStatement _ expression => c expression st
  | VariableDeclaration i kind declarations =>
      match parentIsBody ancestors st with
      | Some atTop =>
          let translateDecl := isVar kind || atTop in
          match forEach c declarations (setTranslating st translateDecl) with
          | Some st =>
              let st := setTranslating st false in
              if negb translateDecl then Some st
              else editing (translateDeclaration i kind declarations) st
          | None => None
          end
      | None => None
      end
  | VariableDeclarator _ id init =>
      (* walk.base.VariableDeclarator *)
      match c id st with
      | Some st =>
          match whenSome c init st with
          | Some st =>
              if negb (translatingVariableDeclaration st) then Some st
              else if isIdentifier id then
                editing (prepend (nodeStart id) (Text (globalVar ++ "."))) st
              else Some st
          | None => None
          end
      | None => None
      end
  | FunctionDeclaration i id _ _ => editing (rewriteFunction i id) st
  (* Don't do any translation inside function (etc.) bodies. *)
  | FunctionExpression _ _ _ _ => Some st
  | ArrowFunctionExpression _ _ _ => Some st
  | MethodDefinition _ _ _ _ => Some st
  | ClassDeclaration i id superClass classBody =>
      (* walk.base.ClassDeclaration -> base.Class *)
      match c id st with
      | Some st =>
          match whenSome c superClass st with
          | Some st =>
              match forEach c classBody st with
              | Some st =>
                  match parentIsBody ancestors st with
                  | Some true => editing (rewriteClass i id) st
                  | Some false => Some st
                  | None => None
                  end
              | None => None
              end
          | None => None
          end
      | None => None
      end
  | ObjectPattern _ properties =>
      (* walk.base.ObjectPattern: c(prop.value, st, "Pattern") *)
      match forEach (fun p st =>
                       match p with
                       | Property _ _ _ _ value => c value st
                       | _ => None
                       end) properties st with
      | Some st =>
          if negb (translatingVariableDeclaration st) then Some st
          else editing (forEach rewriteProperty properties) st
      | None => None
      end
  | Property _ _ computed key value =>
      match (if computed then c key st else Some st) with
      | Some st => c value st
      | None => None
      end
  | ArrayPattern _ elements =>
      match forEach (whenSome c) elements st with
      | Some st =>
          if negb (translatingVariableDeclaration st) then Some st
          else editing (forEach rewriteElement elements) st
      | None => None
      end
  | ImportDeclaration _ specifiers source =>
      match forEach c specifiers st with
      | Some st => c source st
      | None => None
      end
  | ImportSpecifier _ _ _ => Some st
  | ImportDefaultSpecifier _ _ => Some st
  | ImportNamespaceSpecifier _ _ => Some st
  end.

End ScopePass.

(** ** The orchestrator *)

Module Transpiler.

Import SourceEditor.

Definition newline : string := String (ascii_of_nat 10) EmptyString.

(** [`(async (${globalVar}, ${importFn}, console) => {\n${src}\n})`] *)
Definition wrapSource (src : string) : string :=
  "(async (" ++ globalVar ++ ", " ++ importFn ++ ", console) => {"
    ++ newline ++ src ++ newline ++ "})".

(** Lines 357 to 364: if the last statement is an expression, turn it
    into a return statement.  The wrapper's body is a block; for any other
    node [body.body] is not a statement list and the embedding fails. *)
Definition returnLast (body : node) (edit : SourceEditor.t)
    : option SourceEditor.t :=
  match body with
  | BlockStatement _ stmts =>
      match lastOf stmts with
      | Some (ExpressionStatement i expression) =>
          edit ← prepend (start i) (Text "return (") edit;
          append (nodeEnd expression) (Text ")") edit
      | _ => Some edit
      end
  | _ => None
  end.

Section WithParser.

(** [acorn.parse(src, parseOptions)], [None] when it throws. *)
Variable parse : string -> option node.

(** [root.body[0].expression], which must be the arrow function. *)
Definition parseAsyncWrapped (src : string) : option (node * node) :=
  root ← parse src;
  match root with
  | Program _ (ExpressionStatement _ fnExpr :: _) =>
      match fnExpr with
      | ArrowFunctionExpression _ _ body => Some (body, root)
      | _ => None
      end
  | _ => None
  end.

(** Everything of [transpile] up to the end of the scope rewrite pass:
    the body of the second parse and the editor after both walks. *)
Definition passes (src : string) : option (node * SourceEditor.t) :=
  let src := wrapSource src in
  let edit := SourceEditor.new (Text src) None in
  '(body, _) ← parseAsyncWrapped src;
  edit ← ImportPass.walk body edit;
  let '(edit, src) := stratify edit in
  '(body, _) ← parseAsyncWrapped src;
  st ← ScopePass.walk body [] (ScopePass.mkState edit body false);
  Some (body, ScopePass.edit st).

Definition transpile (src : string) : option string :=
  '(body, edit) ← passes src;
  edit ← returnLast body edit;
  Some (text edit).

End WithParser.

End Transpiler.

(** ** The tensor front-end: [softmax]

    [ops] and the backend are external.  A tensor is its shape and its
    backend data; the operations of [ops] are parameters that return a
    tensor or throw an error of their own. *)

Module Tensor.

Local Open Scope Z_scope.

Inductive Error (E : Type) :=
| Rejected (msg : string)   (* [throw new Error(msg)] in tensor.ts *)
| OpFailed (e : E).         (* an exception from [ops] *)
Arguments Rejected {E} msg.
Arguments OpFailed {E} e.

Section WithOps.

Context {T E : Type}.
(** [t.shape] *)
Variable shape : T -> list Z.
(** [ops.reshape(t, newShape)]; a dimension read out of range is
    [undefined], here [None]. *)
Variable reshape : T -> list (option Z) -> E + T.
(** [ops.softmax] or [ops.logSoftmax], called with or without the axis. *)
Variable op : T -> option Z -> E + T.

Definition rank (t : T) : Z := Z.of_nat (length (shape t)).

(** [t.shape[i]] *)
Definition dim (t : T) (i : Z) : option Z :=
  if decide (0 <= i) then shape t !! Z.to_nat i else None.

Definition liftOp (r : E + T) : Error E + T :=
  match r with
  | inl e => inl (OpFailed e)
  | inr t => inr t
  end.

Definition softmaxHelper (t : T) (axis : Z) : Error E + T :=
  if decide (axis ≠ -1) then
    inl (Rejected "Softmax along a non-last axis is not yet supported.")
  else if decide (rank t = 2) then
    liftOp (op t (Some axis))
  else
    let origShape := shape t in
    let numClasses := dim t (rank t - 1) in
    match reshape t [Some (-1); numClasses] with
    | inl e => inl (OpFailed e)
    | inr reshaped =>
        match op reshaped None with
        | inl e => inl (OpFailed e)
        | inr result => liftOp (reshape result (Some <$> origShape))
        end
    end.

(** [softmax(axis = -1)] *)
Definition softmax (t : T) (axis : option Z) : Error E + T :=
  softmaxHelper t (default (-1) axis).

End WithOps.

End Tensor.

(** ** The tensor front-end: the methods with logic of their own

    [squeeze], [reverse], [dot], [softmaxCE], the [reduce] methods and the
    helper [rangeJS].  The other methods of [class Tensor] hand their
    arguments to [ops] unchanged.  Dimensions and axes are integers. *)

Module TensorMethods.

Local Open Scope Z_scope.

(** How a method ends when it does not return a tensor. *)
Inductive Failure (E : Type) :=
| AssertionFailed                (* a failed [assert] *)
| Raised (e : Tensor.Error E).   (* [throw new Error(msg)], or [ops] threw *)
Arguments AssertionFailed {E}.
Arguments Raised {E} e.

(** Modelled from the spec: [assert] of [./utils] is not among the sources;
    the specification calls a failed assertion fatal, it aborts the
    operation. *)
Definition assert {E : Type} (cond : bool) : Failure E + unit :=
  if cond then inr tt else inl AssertionFailed.

(** An exception of [ops] or of the backend. *)
Definition lift {E A : Type} (r : E + A) : Failure E + A :=
  match r with
  | inl e => inl (Raised (Tensor.OpFailed e))
  | inr a => inr a
  end.

(** An exception of [softmaxHelper]. *)
Definition raise {E A : Type} (r : Tensor.Error E + A) : Failure E + A :=
  match r with
  | inl e => inl (Raised e)
  | inr a => inr a
  end.

Definition andThen {F A B : Type} (r : F + A) (k : A -> F + B) : F + B :=
  match r with
  | inl f => inl f
  | inr a => k a
  end.

Local Notation "'let!' x ':=' r 'in' k" := (andThen r (fun x => k))
  (at level 10, x name, r at level 100, k at level 200, only parsing).

(** What [class Tensor] uses of [./ops] and [./backend], each call returning
    a tensor or throwing.  [X] is [types.TensorLike]. *)
Record Backend (T X E : Type) := mkBackend {
  (** [t.shape] *)
  shape : T -> list Z;
  (** a [Tensor] passed where a [TensorLike] is expected *)
  ofTensor : T -> X;
  (** a [Uint8Array] passed where a [TensorLike] is expected *)
  ofUint8Array : list Z -> X;
  (** [this.colocate(x, dtype)] *)
  colocate : T -> X -> option string -> E + T;
  (** [ops.reshape(t, newShape)]; a dimension read out of range is
      [undefined], here [None] *)
  reshape : T -> list (option Z) -> E + T;
  matmul : T -> T -> E + T;
  mul : T -> T -> E + T;
  neg : T -> E + T;
  (** [ops.reduceSum(t, axes, keepDims)] and the other reductions *)
  reduceSum : T -> list (option Z) -> bool -> E + T;
  (** [ops.logSoftmax(t, axis)], called with or without the axis *)
  logSoftmax : T -> option Z -> E + T;
  (** [ops.reverse(t, dims)] *)
  opsReverse : T -> T -> E + T
}.
Arguments shape {T X E}.
Arguments ofTensor {T X E}.
Arguments ofUint8Array {T X E}.
Arguments colocate {T X E}.
Arguments reshape {T X E}.
Arguments matmul {T X E}.
Arguments mul {T X E}.
Arguments neg {T X E}.
Arguments reduceSum {T X E}.
Arguments logSoftmax {T X E}.
Arguments opsReverse {T X E}.

(** [function rangeJS(limit)]: [new Array(limit)] holds [limit] holes, the
    loop fills them from index 0 upwards. *)
Definition rangeJS (limit : nat) : list (option Z) :=
  foldl (fun r i => <[i := Some (Z.of_nat i)]> r)
        (replicate limit None) (seq 0 limit).

(** [const newShape = this.shape.filter((d) => d > 1)] *)
Definition squeezeShape (shape : list Z) : list Z :=
  filter (fun d => 1 < d) shape.

(** [const i = dim >= 0 ? dim : this.rank + dim] *)
Definition axisOf (rank dim : Z) : Z :=
  if decide (0 <= dim) then dim else rank + dim.

(** The body of the loop of [reverse]: the assertion, then [ta[i] = 1]. *)
Definition markDim (rank dim : Z) (ta : list Z) : option (list Z) :=
  if bool_decide (- rank <= dim) && bool_decide (dim < rank) then
    Some (<[Z.to_nat (axisOf rank dim) := 1]> ta)
  else None.

(** [const ta = new Uint8Array(this.rank)] after the loop over [dims];
    [None] when an assertion fails. *)
Definition reverseMask (rank : nat) (dims : list Z) : option (list Z) :=
  forEach (markDim (Z.of_nat rank)) dims (replicate rank 0).

Section WithBackend.

Context {T X E : Type}.
Variable b : Backend T X E.

Definition rank (t : T) : Z := Tensor.rank (shape b) t.

(** [t.shape[i]] *)
Definition dim (t : T) (i : Z) : option Z := Tensor.dim (shape b) t i.

(** [squeeze()] *)
Definition squeeze (t : T) : Failure E + T :=
  lift (reshape b t (Some <$> squeezeShape (shape b t))).

(** [reduceSum(axes?, keepDims = false)], and in the same way [reduceMean],
    [reduceMax] and [reduceLogSumExp]: an array, also an empty one, is
    truthy. *)
Definition reduce (op : T -> list (option Z) -> bool -> E + T)
    (t : T) (axes : option (list Z)) (keepDims : bool) : Failure E + T :=
  let axes := match axes with
              | Some axes => Some <$> axes
              | None => rangeJS (length (shape b t))
              end in
  lift (op t axes keepDims).

(** [reverse(dims?)] *)
Definition reverse (t : T) (dims : option (list Z)) : Failure E + T :=
  let dims := default [-1] dims in
  match reverseMask (length (shape b t)) dims with
  | None => inl AssertionFailed
  | Some ta =>
      let! dimsT := lift (colocate b t (ofUint8Array b ta) (Some "bool")) in
      lift (opsReverse b t dimsT)
  end.

(** [matmul(x)] *)
Definition matmulMethod (t : T) (x : X) : Failure E + T :=
  let! xx := lift (colocate b t x None) in
  lift (matmul b t xx).

(** [mul(x)] *)
Definition mulMethod (t : T) (x : X) : Failure E + T :=
  let! xx := lift (colocate b t x None) in
  lift (mul b t xx).

(** The first [if] chain of [dot]: [left] and [lShape], [None] for a
    [left] that is [null]. *)
Definition dotLeft (t xx : T) : Failure E + option (T * list (option Z)) :=
  if decide (rank t = 0) then
    let! left_ := lift (reshape b t [Some 1; Some 1]) in
    inr (Some (left_, []))
  else if decide (rank t = 1) then
    let! _ := assert (bool_decide (dim t 0 = dim xx 0)) in
    let! left_ := lift (reshape b t [Some 1; dim t 0]) in
    inr (Some (left_, []))
  else if decide (rank t = 2) then
    inr (Some (t, [dim t 0]))
  else inr None.

(** The second [if] chain of [dot]: [right] and [rShape]. *)
Definition dotRight (t xx : T) : Failure E + option (T * list (option Z)) :=
  if decide (rank xx = 0) then
    let! right_ := lift (reshape b xx [Some 1; Some 1]) in
    inr (Some (right_, []))
  else if decide (rank xx = 1) then
    let! _ := assert (bool_decide (dim t (rank t - 1) = dim xx 0)) in
    let! right_ := lift (reshape b xx [dim xx 0; Some 1]) in
    inr (Some (right_, []))
  else if decide (rank xx = 2) then
    inr (Some (xx, [dim xx (rank xx - 1)]))
  else inr None.

(** [dot(x)] *)
Definition dot (t : T) (x : X) : Failure E + T :=
  let! xx := lift (colocate b t x None) in
  let! left_ := dotLeft t xx in
  let! right_ := dotRight t xx in
  match left_, right_ with
  | Some (left_, lShape), Some (right_, rShape) =>
      let outShape := lShape ++ rShape in
      let! product := matmulMethod left_ (ofTensor b right_) in
      lift (reshape b product outShape)
  | _, _ =>
      inl (Raised (Tensor.Rejected
        "dot with tensors of rank greater than 2 is not yet implemented."))
  end.

(** [softmaxCE(labels)] *)
Definition softmaxCE (t : T) (labels : X) : Failure E + T :=
  let logits := t in
  let! labelsT := lift (colocate b t labels None) in
  let! _ := assert (bool_decide (rank labelsT = 2)) in
  let! _ := assert (bool_decide (rank logits = 2)) in
  let! logQ := raise (Tensor.softmax (shape b) (reshape b) (logSoftmax b)
                        logits None) in
  let! pLogQ := mulMethod labelsT (ofTensor b logQ) in
  let! sum := reduce (reduceSum b) pLogQ (Some [1]) false in
  lift (neg b sum).

End WithBackend.

End TensorMethods.

(** * Specification vocabulary *)

(** The characters of a string constant. *)
Abbreviation lit s := (list_ascii_of_string s) (only parsing).

(** [span a b ed]: the characters rendered by the nodes at the positions
    [a <= i < b] of the index. *)
Definition span (a b : nat) (ed : SourceEditor.t) : list ascii :=
  chars (concat (EditNode.current <$>
                   take (b - a) (drop a (SourceEditor.index ed)))).

Fixpoint sliceFrom (offset a b : nat) (cps : list string) : list ascii :=
  match cps with
  | [] => []
  | c :: rest =>
      (if decide (a <= offset < b) then list_ascii_of_string c else []) ++
      sliceFrom (offset + units c) a b rest
  end.

(** [s.slice(a, b)] for offsets that lie between code points, as the offsets
    of a parse tree do: the code points of [s] that start at a UTF-16 offset
    [a <= k < b]. *)
Definition slice (a b : nat) (s : string) : list ascii :=
  sliceFrom 0 a b (codePoints s).

(** The first [n] code points of [s] are one UTF-16 unit each: none of them
    lies outside the Basic Multilingual Plane. *)
Definition singleUnits (n : nat) (s : string) : bool :=
  forallb (fun c => units c =? 1) (take n (codePoints s)).

(** [sameOutside a b ed ed']: the two editors have the same number of nodes
    and the same node at every position outside [a <= i < b]. *)
Definition sameOutside (a b : nat) (ed ed' : SourceEditor.t) : Prop :=
  length (SourceEditor.index ed') = length (SourceEditor.index ed) /\
  forall i, i < a \/ b <= i ->
    SourceEditor.index ed' !! i = SourceEditor.index ed !! i.

(** A policy rejection by the tensor front-end itself. *)
Definition isRejected {E T : Type} (r : Tensor.Error E + T) : bool :=
  match r with
  | inl (Tensor.Rejected _) => true
  | _ => false
  end.

(** Following the words of the specification: a tensor of rank [r] has the
    axes [0 .. r - 1], which are also written [-r .. -1] counting from the
    end; its final axis is [r - 1], also written [-1]. *)
Definition denotesFinalAxis (r axis : Z) : bool :=
  bool_decide (axis = -1 \/ axis = r - 1)%Z.

Definition denotesNonFinalAxis (r axis : Z) : bool :=
  bool_decide (- r <= axis < r)%Z && negb (denotesFinalAxis r axis).

(** The nodes directly below a node. *)
Definition children (n : node) : list node :=
  match n with
  | Identifier _ _ => []
  | Generic _ _ cs => cs
  | Program _ body => body
  | BlockStatement _ body => body
  | ExpressionStatement _ expression => [expression]
  | VariableDeclaration _ _ declarations => declarations
  | VariableDeclarator _ id init => id :: option_list init
  | FunctionDeclaration _ id params body => id :: params ++ [body]
  | FunctionExpression _ id params body => option_list id ++ params ++ [body]
  | ArrowFunctionExpression _ params body => params ++ [body]
  | MethodDefinition _ _ key value => [key; value]
  | ClassDeclaration _ id superClass classBody =>
      id :: option_list superClass ++ classBody
  | ObjectPattern _ properties => properties
  | Property _ _ _ key value => [key; value]
  | ArrayPattern _ elements => omap (fun x => x) elements
  | ImportDeclaration _ specifiers source => specifiers ++ [source]
  | ImportSpecifier _ imported local => [imported; local]
  | ImportDefaultSpecifier _ local => [local]
  | ImportNamespaceSpecifier _ local => [local]
  end.

(** ** Walks that leave the editor alone *)

(** [importFree n]: the import pass, started at [n], meets no import
    declaration and no import specifier. *)
Fixpoint importFree (n : node) : bool :=
  match n with
  | Identifier _ _ => true
  | Generic _ _ children => forallb importFree children
  | Program _ body => forallb importFree body
  | BlockStatement _ body => forallb importFree body
  | ExpressionStatement _ expression => importFree expression
  | VariableDeclaration _ _ declarations => forallb importFree declarations
  | VariableDeclarator _ id init =>
      importFree id && from_option importFree true init
  | FunctionDeclaration _ _ _ _ => true
  | FunctionExpression _ _ _ _ => true
  | ArrowFunctionExpression _ _ _ => true
  | MethodDefinition _ _ _ _ => true
  | ClassDeclaration _ id superClass classBody =>
      importFree id && from_option importFree true superClass
      && forallb importFree classBody
  | ObjectPattern _ properties =>
      forallb (fun p => match p with
                        | Property _ _ _ _ value => importFree value
                        | _ => false
                        end) properties
  | Property _ _ computed key value =>
      (if computed then importFree key else true) && importFree value
  | ArrayPattern _ elements => forallb (from_option importFree true) elements
  | ImportDeclaration _ _ _ => false
  | ImportSpecifier _ _ _ => false
  | ImportDefaultSpecifier _ _ => false
  | ImportNamespaceSpecifier _ _ => false
  end.

(** [quiet flag b p n]: the scope pass, started at [n] below a parent with
    identity [p], with [translatingVariableDeclaration = flag] and a wrapper
    body of identity [b], meets nothing that it rewrites: no function
    declaration and no [var] declaration at any depth outside function and
    method bodies, [let], [const] and [class] declarations only below a
    parent other than the wrapper body, and destructuring patterns only
    while the flag is off. *)
Fixpoint quiet (flag : bool) (b p : nat) (n : node) : bool :=
  let me := nid (info n) in
  match n with
  | Identifier _ _ => true
  | Generic _ _ children => forallb (quiet flag b me) children
  | Program _ body => forallb (quiet flag b me) body
  | BlockStatement _ body => forallb (quiet flag b me) body
  | ExpressionStatement _ expression => quiet flag b me expression
  | VariableDeclaration _ kind declarations =>
      negb flag && negb (ScopePass.isVar kind)
      && negb (me =? p) && negb (p =? b)
      && forallb (quiet false b me) declarations
  | VariableDeclarator _ id init =>
      negb flag && quiet flag b me id && from_option (quiet flag b me) true init
  | FunctionDeclaration _ _ _ _ => false
  | FunctionExpression _ _ _ _ => true
  | ArrowFunctionExpression _ _ _ => true
  | MethodDefinition _ _ _ _ => true
  | ClassDeclaration _ id superClass classBody =>
      negb (me =? p) && negb (p =? b)
      && quiet flag b me id && from_option (quiet flag b me) true superClass
      && forallb (quiet flag b me) classBody
  | ObjectPattern _ properties =>
      negb flag
      && forallb (fun q => match q with
                           | Property _ _ _ _ value => quiet flag b me value
                           | _ => false
                           end) properties
  | Property _ _ computed key value =>
      (if computed then quiet flag b me key else true) && quiet flag b me value
  | ArrayPattern _ elements =>
      negb flag && forallb (from_option (quiet flag b me) true) elements
  | ImportDeclaration _ specifiers source =>
      forallb (quiet flag b me) specifiers && quiet flag b me source
  | ImportSpecifier _ _ _ => true
  | ImportDefaultSpecifier _ _ => true
  | ImportNamespaceSpecifier _ _ => true
  end.

(** Following the words of the specification: a declaration statement, and a
    wrapper body without top-level declarations. *)
Definition isDeclaration (n : node) : bool :=
  match n with
  | VariableDeclaration _ _ _ | FunctionDeclaration _ _ _ _
  | ClassDeclaration _ _ _ _ => true
  | _ => false
  end.

Definition noTopLevelDeclarations (stmts : list node) : bool :=
  forallb (fun s => negb (isDeclaration s)) stmts.

(** The parentheses of a text are balanced: the depth never drops below
    zero and ends at zero. *)
Fixpoint parenDepth (depth : nat) (t : list ascii) : option nat :=
  match t with
  | [] => Some depth
  | c :: t' =>
      if Ascii.eqb c "("%char then parenDepth (S depth) t'
      else if Ascii.eqb c ")"%char then
        match depth with
        | 0 => None
        | S d => parenDepth d t'
        end
      else parenDepth depth t'
  end.

Definition balanced (s : string) : bool :=
  bool_decide (parenDepth 0 (lit s) = Some 0).

(** ** Chains of regions

    The nodes of a list (the specifiers of an import, the declarators of a
    declaration) lie in the text one after the other: [ordered sep from l]
    says that each one is a non-empty region, starting at least [sep]
    positions after the end of the one before it (after [from] for the
    first).  [upper from l] is the end of the last region, [chainText] the
    text of the chain: before every region the text of the gap that
    precedes it, as [gap] gives it, then the text of the region as [body]
    gives it. *)

Section Chains.

Context {A : Type} (lo hi : A -> nat).






End Chains.


(** ** Imports: the text of a rewritten specifier *)



(** ** Declarations: the text of a translated declarator *)














(** ** Sample cells

    Parse trees of a few cells, as [acorn] builds them for the wrapped
    source: the cell starts at offset 42 of the wrapped text. *)

Module Sample.

(** A parser that knows the listed texts. *)
Definition parseTable (table : list (string * node)) (src : string)
    : option node :=
  snd <$> List.find (fun entry => String.eqb entry.1 src) table.

Definition at_ (id a b : nat) : NodeInfo := mkInfo id (42 + a) (42 + b).

Definition literal (id a b : nat) : node := Generic "Literal" (at_ id a b) [].

(** The tree of the wrapped text of a cell of [len] UTF-16 units with the
    statements [stmts]. *)
Definition wrapped (len : nat) (stmts : list node) : node :=
  Program (mkInfo 0 0 (45 + len))
    [ExpressionStatement (mkInfo 1 0 (45 + len))
       (ArrowFunctionExpression (mkInfo 2 1 (44 + len)) []
          (BlockStatement (mkInfo 3 40 (44 + len)) stmts))].

(** A parser for the cell [cell] whose statements are [stmts]. *)
Definition parserOf (cell : string) (stmts : list node) : string -> option node :=
  parseTable
    [(Transpiler.wrapSource cell, wrapped (utf16Length cell) stmts)].


(** [var x = 1, y;], the wrapper body of the cell and the state in which
    the scope pass starts on it. *)
Definition pairCell : string := "var x = 1, y;".
Definition pairDeclarators : list node :=
  [VariableDeclarator (at_ 11 4 9) (Identifier (at_ 12 4 5) "x")
     (Some (literal 13 8 9));
   VariableDeclarator (at_ 14 11 12) (Identifier (at_ 15 11 12) "y") None].
Definition pairDecl : node := VariableDeclaration (at_ 10 0 13) KVar pairDeclarators.
Definition pairBody : node := BlockStatement (mkInfo 3 40 57) [pairDecl].
Definition pairState : ScopePass.State :=
  ScopePass.mkState (SourceEditor.new (Text (Transpiler.wrapSource pairCell)) None)
    pairBody false.


(** [class C {}] *)
Definition classCell : string := "class C {}".
Definition classStmts : list node :=
  [ClassDeclaration (at_ 10 0 10) (Identifier (at_ 11 6 7) "C") None []].

(** [{ let x = 1; var y = 2; }] *)
Definition blockCell : string := "{ let x = 1; var y = 2; }".
Definition nestedLet : node :=
  VariableDeclaration (at_ 11 2 12) KLet
    [VariableDeclarator (at_ 12 6 11) (Identifier (at_ 13 6 7) "x")
       (Some (literal 14 10 11))].
Definition nestedVar : node :=
  VariableDeclaration (at_ 15 13 23) KVar
    [VariableDeclarator (at_ 16 17 22) (Identifier (at_ 17 17 18) "y")
       (Some (literal 18 21 22))].
Definition innerBlock : node :=
  BlockStatement (at_ 10 0 25) [nestedLet; nestedVar].
Definition blockStmts : list node := [innerBlock].
(** The wrapper body of the cell, and the state in which the scope pass
    starts on it. *)
Definition blockBody : node := BlockStatement (mkInfo 3 40 69) blockStmts.
Definition blockState : ScopePass.State :=
  ScopePass.mkState (SourceEditor.new (Text (Transpiler.wrapSource blockCell)) None)
    blockBody false.

(** [{ let x = 1; } f(x)] *)
Definition quietCell : string := "{ let x = 1; } f(x)".
Definition quietStmts : list node :=
  [BlockStatement (at_ 10 0 14) [nestedLet];
   ExpressionStatement (at_ 20 15 19)
     (Generic "CallExpression" (at_ 21 15 19)
        [Identifier (at_ 22 15 16) "f"; Identifier (at_ 23 17 18) "x"])].

(** [if (a) b;] *)
Definition ifCell : string := "if (a) b;".
Definition ifStmts : list node :=
  [Generic "IfStatement" (at_ 10 0 9)
     [Identifier (at_ 11 4 5) "a";
      ExpressionStatement (at_ 12 7 9) (Identifier (at_ 13 7 8) "b")]].

Definition quoted (s : string) : string :=
  String (ascii_of_nat 34) s ++ String (ascii_of_nat 34) EmptyString.

(** The character U+1F600, outside the Basic Multilingual Plane: four bytes
    of UTF-8 and two UTF-16 code units. *)
Definition astral : string :=
  String (ascii_of_nat 240) (String (ascii_of_nat 159)
    (String (ascii_of_nat 152) (String (ascii_of_nat 128) EmptyString))).

(** The string literal holding U+1F600, then [f(x)]: the literal takes the
    offsets 0 to 4 of the cell. *)
Definition astralCell : string := quoted astral ++ "; f(x)".
Definition astralStmts : list node :=
  [ExpressionStatement (at_ 10 0 5) (literal 11 0 4);
   ExpressionStatement (at_ 12 6 10)
     (Generic "CallExpression" (at_ 13 6 10)
        [Identifier (at_ 14 6 7) "f"; Identifier (at_ 15 8 9) "x"])].

(** The same with U+1F600 four times in the literal, which takes the offsets
    0 to 10. *)
Definition astralsCell : string :=
  quoted (astral ++ astral ++ astral ++ astral) ++ "; f(x)".
Definition astralsStmts : list node :=
  [ExpressionStatement (at_ 10 0 11) (literal 11 0 10);
   ExpressionStatement (at_ 12 12 16)
     (Generic "CallExpression" (at_ 13 12 16)
        [Identifier (at_ 14 12 13) "f"; Identifier (at_ 15 14 15) "x"])].

(** [import a, {b as c, d} from "m";] *)
Definition importCell : string :=
  "import a, {b as c, d} from " ++ quoted "m" ++ ";".
Definition importDecl : node :=
  ImportDeclaration (at_ 10 0 31)
    [ImportDefaultSpecifier (at_ 11 7 8) (Identifier (at_ 12 7 8) "a");
     ImportSpecifier (at_ 13 11 17)
       (Identifier (at_ 14 11 12) "b") (Identifier (at_ 15 16 17) "c");
     ImportSpecifier (at_ 16 19 20)
       (Identifier (at_ 17 19 20) "d") (Identifier (at_ 17 19 20) "d")]
    (literal 18 27 30).


(** The editor in which the import pass starts on a cell. *)
Definition editorOf (cell : string) : SourceEditor.t :=
  SourceEditor.new (Text (Transpiler.wrapSource cell)) None.


End Sample.

(** ** Edits as values

    The three editing methods of [SourceEditor] as one type, so that facts
    about sequences of edits can be stated once. *)

Inductive Edit :=
| Replace (start end_ : nat) (str : SourceLike)
| Prepend (start : nat) (str : SourceLike)
| Append (end_ : nat) (str : SourceLike).

(** [edit.replace(start, end, str)], [edit.prepend({start}, str)],
    [edit.append({end}, str)]. *)
Definition runEdit (op : Edit) (ed : SourceEditor.t) : option SourceEditor.t :=
  match op with
  | Replace start end_ str => SourceEditor.replace start end_ str ed
  | Prepend start str => SourceEditor.prepend start str ed
  | Append end_ str => SourceEditor.append end_ str ed
  end.

(** The offsets of an edit address nodes of an index of [len] nodes. *)
Definition inRange (op : Edit) (len : nat) : Prop :=
  match op with
  | Replace start end_ _ => start < len /\ end_ <= len
  | Prepend start _ => start < len
  | Append end_ _ => 0 < end_ /\ end_ <= len
  end.

(** The nodes [lo <= i < hi] that an edit may change. *)
Definition touchedFrom (op : Edit) : nat :=
  match op with
  | Replace start _ _ => start
  | Prepend start _ => start
  | Append end_ _ => end_ - 1
  end.

Definition touchedTo (op : Edit) : nat :=
  match op with
  | Replace start end_ _ => Nat.max end_ (S start)
  | Prepend start _ => S start
  | Append end_ _ => end_
  end.

(** What an edit does to the node at position [i]. *)
Definition editNode (op : Edit) (i : nat) (n : EditNode.t) : EditNode.t :=
  match op with
  | Replace start end_ str =>
      if decide (i = start) then EditNode.replace str n
      else if decide (start < i < end_) then EditNode.clear n
      else n
  | Prepend start str => if decide (i = start) then EditNode.prepend str n else n
  | Append end_ str => if decide (S i = end_) then EditNode.append str n else n
  end.

(** The characters that an edit inserts. *)
Definition inserted (op : Edit) : list ascii :=
  match op with
  | Replace _ _ str | Prepend _ str | Append _ str => chars (convert str None)
  end.

(** The position in the text before which the inserted characters go, and
    the position at which the old text resumes. *)
Definition insertAt (op : Edit) : nat :=
  match op with
  | Replace start _ _ => start
  | Prepend start _ => start
  | Append end_ _ => end_
  end.

Definition resumeAt (op : Edit) : nat :=
  match op with
  | Replace start end_ _ => Nat.max end_ (S start)
  | Prepend start _ => start
  | Append end_ _ => end_
  end.

(** An element of an array pattern that is an identifier or a hole. *)
Definition plainElement (elt : option node) : bool :=
  match elt with
  | Some x => isIdentifier x
  | None => true
  end.

(** ** Vocabulary for the tensor methods *)

(** The number of elements of a tensor of the given shape. *)
Definition elementCount (shape : list Z) : Z := foldr Z.mul 1%Z shape.

(** The backend [b] with another [reshape]. *)
Definition withReshape {T X E : Type} (b : TensorMethods.Backend T X E)
    (reshape' : T -> list (option Z) -> E + T) : TensorMethods.Backend T X E :=
  TensorMethods.mkBackend T X E
    (TensorMethods.shape b) (TensorMethods.ofTensor b)
    (TensorMethods.ofUint8Array b) (TensorMethods.colocate b) reshape'
    (TensorMethods.matmul b) (TensorMethods.mul b) (TensorMethods.neg b)
    (TensorMethods.reduceSum b) (TensorMethods.logSoftmax b)
    (TensorMethods.opsReverse b).

(** The shape [dot] asks for at the end. *)
Definition dotShape {T X E : Type} (b : TensorMethods.Backend T X E) (t xx : T)
    : list (option Z) :=
  (if decide (TensorMethods.rank b t = 2%Z)
   then [TensorMethods.dim b t 0%Z] else []) ++
  (if decide (TensorMethods.rank b xx = 2%Z)
   then [TensorMethods.dim b xx 1%Z] else []).

(** A backend that computes shapes only: a tensor is its shape, every
    tensor-like value is a tensor, and an operation throws when [ops] would
    reject the shapes. *)
Module ShapeOnly.

Local Open Scope Z_scope.

Definition reshape (t : list Z) (newShape : list (option Z)) : unit + list Z :=
  match mapM id newShape with
  | Some s => if decide (elementCount s = elementCount t) then inr s else inl tt
  | None => inl tt
  end.

Definition matmul (t x : list Z) : unit + list Z :=
  match t, x with
  | [n; k], [k'; m] => if decide (k = k') then inr [n; m] else inl tt
  | _, _ => inl tt
  end.

Definition backend : TensorMethods.Backend (list Z) (list Z) unit :=
  TensorMethods.mkBackend (list Z) (list Z) unit
    (fun t => t) (fun t => t) (fun ta => [Z.of_nat (length ta)])
    (fun _ x _ => inr x) reshape matmul
    (fun t x => if decide (t = x) then inr t else inl tt)
    (fun t => inr t)
    (fun t _ _ => inr t)
    (fun t _ => inr t)
    (fun t _ => inr t).

End ShapeOnly.

(** What the scope pass keeps of its state: the length of the index, the
    wrapper body, and a flag that is off stays off. *)
Definition keeps (st st' : ScopePass.State) : Prop :=
  length (SourceEditor.index (ScopePass.edit st')) = length (SourceEditor.index (ScopePass.edit st)) /\
  ScopePass.body st' = ScopePass.body st /\
  (ScopePass.translatingVariableDeclaration st' = true ->
   ScopePass.translatingVariableDeclaration st = true).

(** * Facts about the editor *)

Section EditorFacts.

Import SourceEditor.

Lemma splitCodePoints_concat fuel : forall bytes,
  length bytes <= fuel -> concat (splitCodePoints fuel bytes) = bytes.
Proof.
  induction fuel as [|fuel IH]; intros [|lead bytes] Hlen; simpl in *;
    [done | lia | done |].
  assert (Hw : 1 <= width lead).
  { unfold width. repeat case_match; lia. }
  rewrite IH; [apply take_drop|].
  destruct (width lead) as [|w]; [lia|]. simpl. rewrite length_drop. lia.
Qed.

Lemma codePoints_concat s :
  concat (list_ascii_of_string <$> codePoints s) = lit s.
Proof.
  unfold codePoints. rewrite <- list_fmap_compose.
  rewrite (list_fmap_ext _ id)
    by (intros ? x _; apply (list_ascii_of_string_of_list_ascii x)).
  rewrite list_fmap_id. apply splitCodePoints_concat.
  clear. induction s; simpl; [done | lia].
Qed.

Lemma char_tagChars f l : char <$> tagChars f l = l.
Proof.
  unfold tagChars. rewrite fmap_imap.
  rewrite <- (list_fmap_id l) at 2. rewrite <- imap_const.
  by apply imap_ext.
Qed.

Lemma chars_tagChars f l :
  chars (tagChars f l) = concat (list_ascii_of_string <$> l).
Proof.
  unfold chars. rewrite (list_fmap_compose char list_ascii_of_string).
  by rewrite char_tagChars.
Qed.

Lemma chars_convert_text s f : chars (convert (Text s) f) = lit s.
Proof. unfold convert. rewrite chars_tagChars. apply codePoints_concat. Qed.

Lemma chars_app (s1 s2 : Source) : chars (s1 ++ s2) = chars s1 ++ chars s2.
Proof. unfold chars. by rewrite fmap_app, concat_app. Qed.

Lemma source_concat ed : source ed = concat (EditNode.current <$> index ed).
Proof.
  unfold source.
  assert (H : forall l acc,
    foldl (fun acc n => acc ++ EditNode.current n) acc l
    = acc ++ concat (EditNode.current <$> l)).
  { induction l as [|x l IH]; intros acc; simpl.
    - by rewrite app_nil_r.
    - rewrite IH. by rewrite <- app_assoc. }
  by rewrite H.
Qed.

Lemma source_set_source src : source (set_source src) = src.
Proof.
  rewrite source_concat. unfold set_source.
  destruct (decide (0 < length src)) as [?|Hn]; simpl.
  - clear. induction src as [|c src IH]; [done|]. cbn. by f_equal.
  - destruct src; simpl in *; [done | lia].
Qed.

Lemma length_set_source src :
  length (index (set_source src)) = Nat.max 1 (length src).
Proof.
  unfold set_source. destruct (decide (0 < length src)); simpl.
  - rewrite length_fmap. lia.
  - lia.
Qed.

Lemma length_convert_text s f :
  length (convert (Text s) f) = length (codePoints s).
Proof. unfold convert, tagChars. apply length_imap. Qed.

Lemma onNode_Some i f idx :
  i < length idx -> onNode i f idx = Some (alter f i idx).
Proof.
  intros Hi. unfold onNode.
  destruct (lookup_lt_is_Some_2 idx i Hi) as [x ->]. done.
Qed.

Lemma clearFrom_lookup count : forall from idx,
  from + count <= length idx ->
  exists idx', clearFrom from count idx = Some idx' /\
    length idx' = length idx /\
    forall i, idx' !! i =
      if decide (from <= i < from + count) then Some (EditNode.mk [])
      else idx !! i.
Proof.
  induction count as [|k IH]; intros from idx Hlen; simpl.
  - exists idx. repeat split. intros i. case_decide; [lia | done].
  - rewrite onNode_Some by lia. simpl.
    destruct (IH (S from) (alter EditNode.clear from idx)) as (idx' & -> & Hl & Hi).
    { rewrite length_alter. lia. }
    exists idx'. rewrite length_alter in Hl. repeat split; [done|].
    intros i. rewrite Hi. repeat case_decide; try lia; try done.
    + destruct (decide (i = from)) as [->|].
      * rewrite list_lookup_alter_eq.
        destruct (lookup_lt_is_Some_2 idx from ltac:(lia)) as [x ->]. done.
      * lia.
    + by rewrite list_lookup_alter_ne by lia.
Qed.

Lemma replace_lookup ed start end_ str :
  start < length (index ed) -> end_ <= length (index ed) ->
  exists ed', replace start end_ str ed = Some ed' /\
    length (index ed') = length (index ed) /\
    forall i, index ed' !! i =
      if decide (i = start) then Some (EditNode.mk (convert str None))
      else if decide (start < i < end_) then Some (EditNode.mk [])
      else index ed !! i.
Proof.
  intros Hs He. unfold replace. rewrite onNode_Some by done. simpl.
  destruct (clearFrom_lookup (end_ - (start + 1)) (start + 1)
              (alter (EditNode.replace str) start (index ed)))
    as (idx' & -> & Hl & Hi).
  { rewrite length_alter. lia. }
  simpl. eexists. split; [done|]. simpl. rewrite length_alter in Hl.
  split; [done|]. intros i. rewrite Hi.
  repeat case_decide; try lia; try done.
  - subst i. rewrite list_lookup_alter_eq.
    destruct (lookup_lt_is_Some_2 (index ed) start Hs) as [x ->]. done.
  - by rewrite list_lookup_alter_ne by lia.
Qed.

(** *** Spans *)

Lemma span_split a b c ed :
  a <= b -> b <= c -> span a c ed = span a b ed ++ span b c ed.
Proof.
  intros Hab Hbc. unfold span.
  rewrite <- chars_app, <- concat_app, <- fmap_app. do 3 f_equal.
  replace (c - a) with ((b - a) + (c - b)) by lia.
  rewrite <- take_take_drop. f_equal. rewrite drop_drop.
  by replace (a + (b - a)) with b by lia.
Qed.

Lemma span_ext a b ed ed' :
  (forall i, a <= i < b -> index ed' !! i = index ed !! i) ->
  span a b ed' = span a b ed.
Proof.
  intros H. unfold span. do 3 f_equal. apply list_eq. intros i.
  destruct (decide (i < b - a)).
  - rewrite !lookup_take_lt, !lookup_drop by done. apply H. lia.
  - by rewrite !lookup_take_ge by lia.
Qed.

Lemma span_nil a b ed : b <= a -> span a b ed = [].
Proof. intros H. unfold span. by replace (b - a) with 0 by lia. Qed.

Lemma span_single a ed n :
  index ed !! a = Some n -> span a (S a) ed = chars (EditNode.current n).
Proof.
  intros H. unfold span. replace (S a - a) with 1 by lia.
  rewrite (drop_S _ _ _ H). simpl. by rewrite app_nil_r.
Qed.

Lemma span_cleared a b ed :
  (forall i, a <= i < b -> index ed !! i = Some (EditNode.mk [])) ->
  span a b ed = [].
Proof.
  destruct (decide (a <= b)) as [Hab|]; [|intros _; apply span_nil; lia].
  induction Hab as [|b Hab IH]; intros H.
  - by apply span_nil.
  - rewrite (span_split a b (S b)) by lia. rewrite IH by (intros; apply H; lia).
    rewrite (span_single b ed (EditNode.mk [])) by (apply H; lia). done.
Qed.

Lemma text_span ed :
  text ed = string_of_list_ascii (span 0 (length (index ed)) ed).
Proof.
  unfold text, span. rewrite source_concat. simpl.
  by rewrite Nat.sub_0_r, firstn_all.
Qed.




Lemma span_sameOutside a b c d ed ed' :
  sameOutside a b ed ed' -> d <= a \/ b <= c -> span c d ed' = span c d ed.
Proof. intros [_ H] Hd. apply span_ext. intros i Hi. apply H. lia. Qed.

(** The span of a region that contains the only changed node. *)
Lemma span_around s a b ed ed' :
  sameOutside s (S s) ed ed' -> a <= s < b ->
  span a b ed' = span a s ed ++ span s (S s) ed' ++ span (S s) b ed.
Proof.
  intros H Hs.
  rewrite (span_split a s b), (span_split s (S s) b) by lia.
  by rewrite (span_sameOutside s (S s) a s ed), (span_sameOutside s (S s) (S s) b ed)
    by (done || lia).
Qed.

(** *** The editing operations on spans *)

Lemma replace_span ed start end_ str :
  start < length (index ed) -> end_ <= length (index ed) ->
  exists ed', replace start end_ str ed = Some ed' /\
    sameOutside start (Nat.max end_ (S start)) ed ed' /\
    span start (Nat.max end_ (S start)) ed' = chars (convert str None).
Proof.
  intros Hs He.
  destruct (replace_lookup ed start end_ str Hs He) as (ed' & Hr & Hl & Hi).
  exists ed'. split; [done|]. split.
  - split; [done|]. intros i Hlt. rewrite Hi. repeat case_decide; lia || done.
  - rewrite (span_split start (S start)) by lia.
    rewrite (span_single start ed' (EditNode.mk (convert str None))).
    + rewrite span_cleared; [by rewrite app_nil_r|].
      intros i Hlt. rewrite Hi. repeat case_decide; lia || done.
    + rewrite Hi. by case_decide.
Qed.

Lemma prepend_span ed s str :
  s < length (index ed) ->
  exists ed', prepend s str ed = Some ed' /\
    sameOutside s (S s) ed ed' /\
    forall a b, a <= s < b ->
      span a b ed' = span a s ed ++ chars (convert str None) ++ span s b ed.
Proof.
  intros Hs. unfold prepend. rewrite onNode_Some by done. simpl.
  eexists. split; [done|].
  assert (Hsame : sameOutside s (S s) ed
            (mk (alter (EditNode.prepend str) s (index ed)))).
  { split; simpl; [apply length_alter|].
    intros i Hi. apply list_lookup_alter_ne. lia. }
  split; [done|]. intros a b Hab.
  rewrite (span_around s a b ed _ Hsame Hab).
  destruct (lookup_lt_is_Some_2 (index ed) s Hs) as [n Hn].
  rewrite (span_single s _ (EditNode.prepend str n)).
  - simpl. rewrite chars_app, <- app_assoc.
    rewrite <- (span_single s ed n Hn). rewrite <- (span_split s (S s) b) by lia.
    done.
  - simpl. by rewrite list_lookup_alter_eq, Hn.
Qed.

Lemma append_span ed e str :
  0 < e -> e <= length (index ed) ->
  exists ed', append e str ed = Some ed' /\
    sameOutside (e - 1) e ed ed' /\
    forall a b, a < e <= b ->
      span a b ed' = span a e ed ++ chars (convert str None) ++ span e b ed.
Proof.
  intros H0 He. destruct e as [|k]; [lia|]. unfold append.
  rewrite onNode_Some by lia. simpl. rewrite Nat.sub_0_r.
  eexists. split; [done|].
  assert (Hsame : sameOutside k (S k) ed
            (mk (alter (EditNode.append str) k (index ed)))).
  { split; simpl; [apply length_alter|].
    intros i Hi. apply list_lookup_alter_ne. lia. }
  split; [done|]. intros a b Hab.
  rewrite (span_around k a b ed _ Hsame) by lia.
  destruct (lookup_lt_is_Some_2 (index ed) k ltac:(lia)) as [n Hn].
  rewrite (span_single k _ (EditNode.append str n)).
  - simpl. rewrite chars_app, <- (span_single k ed n Hn).
    rewrite (span_split a k (S k)) by lia. by rewrite <- !app_assoc.
  - simpl. by rewrite list_lookup_alter_eq, Hn.
Qed.

(** *** The claims about the edit index *)

(** C7, as amended.  For [start < index.length] and [end <= index.length],
    [replace(start, end, str)] returns, sets the node at [start] to [str],
    empties every node strictly between [start] and [end], and leaves every
    other node unchanged: the nodes before [start] and the nodes at or
    after [end] other than the node at [start] itself.  For a span with
    [start < end] this is the statement of the specification. *)
Theorem replace_sets_clears_and_frames ed start end_ str :
  start < length (index ed) -> end_ <= length (index ed) ->
  exists ed', replace start end_ str ed = Some ed' /\
    length (index ed') = length (index ed) /\
    index ed' !! start = Some (EditNode.mk (convert str None)) /\
    (forall i, start < i < end_ -> index ed' !! i = Some (EditNode.mk [])) /\
    (forall i, i < start \/ (end_ <= i /\ i <> start) ->
       index ed' !! i = index ed !! i).
Proof.
  intros Hs He.
  destruct (replace_lookup ed start end_ str Hs He) as (ed' & Hr & Hl & Hi).
  exists ed'. repeat split; try done.
  - rewrite Hi. by case_decide.
  - intros i Hlt. rewrite Hi. repeat case_decide; lia || done.
  - intros i Hlt. rewrite Hi. repeat case_decide; lia || done.
Qed.

Lemma replace_sets_clears_and_frames_witness :
  exists ed', replace 1 3 (Text "xy") (new (Text "abcd") None) = Some ed' /\
    length (index ed') = length (index (new (Text "abcd") None)) /\
    index ed' !! 1 = Some (EditNode.mk (convert (Text "xy") None)) /\
    (forall i, 1 < i < 3 -> index ed' !! i = Some (EditNode.mk [])) /\
    (forall i, i < 1 \/ (3 <= i /\ i <> 1) ->
       index ed' !! i = index (new (Text "abcd") None) !! i).
Proof.
  apply (replace_sets_clears_and_frames (new (Text "abcd") None) 1 3 (Text "xy"));
    vm_compute; lia.
Defined.

(** C7 as the specification states it fails on an empty in-range span:
    with [start = end = 1] the node at position 1 is at or after [end], and
    it is overwritten. *)
Lemma replace_empty_span_overwrites :
  exists ed',
    replace 1 1 (Text "x") (new (Text "abc") None) = Some ed' /\
    1 <= 1 <= length (index (new (Text "abc") None)) /\
    index ed' !! 1 <> index (new (Text "abc") None) !! 1.
Proof. eexists. split; [reflexivity|]. split; [vm_compute; lia|]. by vm_compute. Qed.

(** C8, as amended.  The index built from a source has one node per
    character when the source is not empty, and exactly one (empty) node
    when it is: its length is [max 1 (length source)].  This holds for the
    setter, for the constructor (a text has one character per code point)
    and for the index rebuilt by [stratify]. *)
Theorem index_length_is_source_length_or_one :
  (forall src, length (index (set_source src)) = Nat.max 1 (length src)) /\
  (forall s f,
     length (index (new (Text s) f)) = Nat.max 1 (length (codePoints s))) /\
  (forall ed, length (index (stratify ed).1) = Nat.max 1 (length (source ed))) /\
  index (set_source []) = [EditNode.mk []].
Proof.
  repeat split.
  - apply length_set_source.
  - intros s f. unfold new. by rewrite length_set_source, length_convert_text.
  - intros ed. unfold stratify. simpl. apply length_set_source.
Qed.

(** C8 as the specification states it fails for the empty source: the
    index has one node and the source has length zero. *)
Lemma empty_source_has_one_node :
  length (index (set_source [])) = 1 /\ length ([] : Source) = 0 /\
  length (index (new (Text EmptyString) None)) <> String.length EmptyString.
Proof. by vm_compute. Qed.

(** C10.  [stratify()] returns the text that [text()] gave before the
    call, and [text()] after the call gives the same text. *)
Theorem stratify_preserves_text ed :
  (stratify ed).2 = text ed /\ text (stratify ed).1 = text ed /\
  source (stratify ed).1 = source ed.
Proof.
  unfold stratify, text. simpl. by rewrite source_set_source.
Qed.

End EditorFacts.

(** * Facts about the tensor front-end *)

Section TensorFacts.

Import Tensor.
Local Open Scope Z_scope.

Context {T E : Type}.
Variable shape : T -> list Z.
Variable reshape : T -> list (option Z) -> E + T.
Variable op : T -> option Z -> E + T.

(** C9, as amended.  [t.softmax(axis)] is rejected by the front-end
    exactly when the axis argument is not the number [-1]; an omitted axis
    is [-1].  With [-1] the request is dispatched: to [op(t, -1)] for a
    tensor of rank 2, and otherwise to [op] on the tensor reshaped to
    [[-1, numClasses]], the result being reshaped back. *)
Theorem softmax_rejected_iff_axis_not_minus_one (t : T) (axis : option Z) :
  isRejected (softmax shape reshape op t axis)
    = negb (bool_decide (default (-1) axis = -1)) /\
  softmax shape reshape op t None = softmax shape reshape op t (Some (-1)) /\
  softmax shape reshape op t (Some (-1)) =
    (if decide (rank shape t = 2) then liftOp (op t (Some (-1)))
     else match reshape t [Some (-1); dim shape t (rank shape t - 1)] with
          | inl e => inl (OpFailed e)
          | inr reshaped =>
              match op reshaped None with
              | inl e => inl (OpFailed e)
              | inr result => liftOp (reshape result (Some <$> shape t))
              end
          end).
Proof.
  split; [|split; reflexivity].
  unfold softmax, softmaxHelper.
  destruct (decide (default (-1) axis ≠ -1)) as [Hne|Heq].
  - simpl. by rewrite bool_decide_eq_false_2.
  - apply dec_stable in Heq. rewrite bool_decide_eq_true_2 by done. simpl.
    case_decide.
    + unfold liftOp. by destruct (op t _).
    + destruct (reshape t _); [done|]. destruct (op _ None); [done|].
      unfold liftOp. by destruct (reshape _ _).
Qed.

End TensorFacts.

(** C9 as the specification states it fails: for a tensor of shape [[2; 3]]
    the axis [1] is the final axis, and [softmax(1)] is rejected. *)
Lemma softmax_final_axis_by_index_rejected :
  let shape := fun t : list Z => t in
  let reshape := fun (t : list Z) (_ : list (option Z)) => inr t : unit + list Z in
  let op := fun (t : list Z) (_ : option Z) => inr t : unit + list Z in
  isRejected (Tensor.softmax shape reshape op [2; 3]%Z (Some 1%Z)) = true /\
  denotesFinalAxis (Tensor.rank shape [2; 3]%Z) 1 = true /\
  denotesNonFinalAxis (Tensor.rank shape [2; 3]%Z) 1 = false.
Proof. by vm_compute. Qed.

(** * Facts about the walks *)

Section WalkFacts.

Import SourceEditor.

(** Induction on the syntax tree, through the children of a node. *)
Lemma node_children_ind (P : node -> Prop) :
  (forall n, Forall P (children n) -> P n) -> forall n, P n.
Proof.
  intros H. fix IH 1. intros n. apply H.
  destruct n as [i name | ty i cs | i cs | i cs | i e | i k cs | i id init
                | i id ps b | i id ps b | i ps b | i cp key v
                | i id sup cs | i cs | i sh cp key v | i elts
                | i cs src | i imp loc | i loc | i loc]; simpl.
  all: try (destruct init as [init|]); try (destruct id as [id|]);
       try (destruct sup as [sup|]); simpl.
  all: repeat first
    [ apply Forall_nil_2
    | apply Forall_cons_2; [apply IH|]
    | apply Forall_app_2 ].
  all: try match goal with
    | |- Forall _ ?l =>
        is_var l; revert l; fix go 1; intros [|c l];
        [constructor | constructor; [apply IH | apply go]]
    end.
  revert elts. fix go 1. intros [|[c|] l]; simpl.
  - constructor.
  - constructor; [apply IH | apply go].
  - apply go.
Qed.

Lemma node_deep_ind (P : node -> Prop) :
  (forall n, Forall (fun c => P c /\ Forall P (children c)) (children n) -> P n) ->
  forall n, P n.
Proof.
  intros H n.
  cut (P n /\ Forall P (children n)); [tauto|].
  induction n as [n IH] using node_children_ind.
  assert (HF : Forall P (children n)).
  { eapply Forall_impl; [exact IH|]. simpl. tauto. }
  split; [|done]. by apply H.
Qed.

Lemma forEach_fixed {A S : Type} (f : A -> S -> option S) (ok : A -> bool)
    (l : list A) (s : S) :
  Forall (fun x => ok x = true -> f x s = Some s) l ->
  forallb ok l = true -> forEach f l s = Some s.
Proof.
  induction 1 as [|x l Hx _ IH]; simpl; [done|].
  intros [Hok Hl]%andb_prop. rewrite (Hx Hok). auto.
Qed.

Lemma whenSome_fixed {A S : Type} (f : A -> S -> option S) (ok : A -> bool)
    (o : option A) (s : S) :
  Forall (fun x => ok x = true -> f x s = Some s) (option_list o) ->
  from_option ok true o = true -> whenSome f o s = Some s.
Proof.
  destruct o as [x|]; simpl; [|done]. intros H Hok.
  by apply (Forall_inv H).
Qed.

(** The import pass does nothing below a node without imports. *)
Lemma importFree_walk n :
  forall ed, importFree n = true -> ImportPass.walk n ed = Some ed.
Proof.
  induction n as [n IH] using node_deep_ind. intros ed Hfree.
  assert (IHc : Forall (fun c => importFree c = true ->
                          ImportPass.walk c ed = Some ed) (children n)).
  { eapply Forall_impl; [exact IH|]. simpl. intros c [Hc _]. apply Hc. }
  destruct n; simpl in *; try done;
    repeat match goal with
           | H : _ && _ = true |- _ => apply andb_prop in H; destruct H
           end.
  - by apply (forEach_fixed _ importFree).
  - by apply (forEach_fixed _ importFree).
  - by apply (forEach_fixed _ importFree).
  - by apply (Forall_inv IHc).
  - by apply (forEach_fixed _ importFree).
  - rewrite (Forall_inv IHc) by done.
    apply (whenSome_fixed _ importFree); [|done]. by apply Forall_inv_tail in IHc.
  - rewrite (Forall_inv IHc) by done. apply Forall_inv_tail in IHc.
    apply Forall_app in IHc as [Hs Hb].
    rewrite (whenSome_fixed _ importFree) by done.
    by apply (forEach_fixed _ importFree).
  - apply (forEach_fixed _ (fun p => match p with
                                     | Property _ _ _ _ value => importFree value
                                     | _ => false
                                     end)); [|done].
    eapply Forall_impl; [exact IH|]. simpl. intros c [_ Hc] Hv.
    destruct c; try done. simpl in Hc.
    apply Forall_inv_tail, Forall_inv in Hc. by apply Hc.
  - pose proof (Forall_inv IHc) as Hk.
    pose proof (Forall_inv (Forall_inv_tail IHc)) as Hv. destruct computed.
    + rewrite Hk by done. by apply Hv.
    + by apply Hv.
  - apply (forEach_fixed _ (from_option importFree true)); [|done].
    clear -IHc. induction elements as [|[x|] l IHl]; simpl in *.
    + constructor.
    + apply Forall_cons in IHc as [Hx Hl]. constructor; [done | by apply IHl].
    + constructor; [done | by apply IHl].
Qed.

Lemma enter_top n top rest :
  exists top' rest',
    ScopePass.enter n (top :: rest) = top' :: rest' /\
    nid (info top') = nid (info n).
Proof.
  unfold ScopePass.enter, sameNode.
  destruct (nid (info n) =? nid (info top)) eqn:E.
  - apply Nat.eqb_eq in E. by exists top, rest.
  - by exists n, (top :: rest).
Qed.

Lemma enter_new n top rest :
  (nid (info n) =? nid (info top)) = false ->
  ScopePass.enter n (top :: rest) = n :: top :: rest.
Proof. intros E. unfold ScopePass.enter, sameNode. by rewrite E. Qed.

(** The scope pass does nothing below a quiet node. *)
Lemma quiet_walk n :
  forall flag b p top rest st,
    nid (info top) = p -> nid (info (ScopePass.body st)) = b ->
    ScopePass.translatingVariableDeclaration st = flag ->
    quiet flag b p n = true ->
    ScopePass.walk n (top :: rest) st = Some st.
Proof.
  induction n as [n IH] using node_deep_ind.
  intros flag b p top rest st Hp Hb Hflag Hq.
  destruct (enter_top n top rest) as (top' & rest' & Henter & Htop').
  assert (IHc : forall fl st', ScopePass.translatingVariableDeclaration st' = fl ->
            nid (info (ScopePass.body st')) = b ->
            Forall (fun c => quiet fl b (nid (info n)) c = true ->
                      ScopePass.walk c (top' :: rest') st' = Some st') (children n)).
  { intros fl st' Hfl Hb'. eapply Forall_impl; [exact IH|]. simpl.
    intros c [Hc _] Hqc. by eapply Hc. }
  assert (IHg : forall fl st', ScopePass.translatingVariableDeclaration st' = fl ->
            nid (info (ScopePass.body st')) = b ->
            Forall (fun c => Forall (fun g => quiet fl b (nid (info n)) g = true ->
                      ScopePass.walk g (top' :: rest') st' = Some st') (children c))
                   (children n)).
  { intros fl st' Hfl Hb'. eapply Forall_impl; [exact IH|]. simpl.
    intros c [_ Hc]. eapply Forall_impl; [exact Hc|]. simpl.
    intros g Hg Hqg. by eapply Hg. }
  clear IH.
  destruct n; cbn [ScopePass.walk]; rewrite ?Henter; cbn [children quiet info] in *;
    try done;
    repeat match goal with
           | H : _ && _ = true |- _ => apply andb_prop in H; destruct H
           | H : negb _ = true |- _ => apply negb_true_iff in H
           end.
  - apply (forEach_fixed _ (quiet flag b (nid i))); [by apply IHc | done].
  - apply (forEach_fixed _ (quiet flag b (nid i))); [by apply IHc | done].
  - apply (forEach_fixed _ (quiet flag b (nid i))); [by apply IHc | done].
  - by apply (Forall_inv (IHc flag st Hflag Hb)).
  - (* VariableDeclaration *)
    rewrite enter_new in Henter by (by rewrite Hp). injection Henter as <- <-.
    cbn [ScopePass.parentIsBody]. unfold sameNode. rewrite Hp, Hb.
    match goal with H : (p =? b) = false |- _ => rewrite H end.
    match goal with H : ScopePass.isVar _ = false |- _ => rewrite H end.
    cbn [orb negb].
    rewrite (forEach_fixed _ (quiet false b (nid i)) declarations
               (ScopePass.setTranslating st false)); [| by apply IHc | done].
    destruct st; simpl in *. by subst.
  - (* VariableDeclarator *)
    subst flag. pose proof (IHc _ st eq_refl Hb) as Hc.
    match goal with H : ScopePass.translatingVariableDeclaration st = false |- _ =>
      rewrite H in * end.
    rewrite (Forall_inv Hc) by done.
    rewrite (whenSome_fixed _ (quiet false b (nid i))); [| by apply Forall_inv_tail in Hc | done].
    match goal with H : ScopePass.translatingVariableDeclaration st = false |- _ =>
      by rewrite H end.
  - (* ClassDeclaration *)
    pose proof (IHc _ st Hflag Hb) as Hc.
    rewrite enter_new in Henter by (by rewrite Hp). injection Henter as <- <-.
    rewrite (Forall_inv Hc) by done. apply Forall_inv_tail in Hc.
    apply Forall_app in Hc as [Hs Hi].
    rewrite (whenSome_fixed _ (quiet flag b (nid i))) by done.
    rewrite (forEach_fixed _ (quiet flag b (nid i))) by done.
    cbn [ScopePass.parentIsBody]. unfold sameNode. rewrite Hp, Hb.
    match goal with H : (p =? b) = false |- _ => by rewrite H end.
  - (* ObjectPattern *)
    subst flag.
    match goal with H : ScopePass.translatingVariableDeclaration st = false |- _ =>
      rename H into Hoff end.
    rewrite (forEach_fixed _ (fun q => match q with
                                       | Property _ _ _ _ value =>
                                           quiet false b (nid i) value
                                       | _ => false
                                       end)).
    + by rewrite Hoff.
    + pose proof (IHg _ st Hoff Hb) as Hg.
      eapply Forall_impl; [exact Hg|]. simpl. intros c Hc Hv.
      destruct c; try done. cbn [children] in Hc.
      apply Forall_inv_tail, Forall_inv in Hc. by apply Hc.
    + by rewrite Hoff in *.
  - (* Property *)
    pose proof (IHc _ st Hflag Hb) as Hc.
    pose proof (Forall_inv Hc) as Hk.
    pose proof (Forall_inv (Forall_inv_tail Hc)) as Hv.
    destruct computed.
    + rewrite Hk by done. by apply Hv.
    + by apply Hv.
  - (* ArrayPattern *)
    subst flag.
    match goal with H : ScopePass.translatingVariableDeclaration st = false |- _ =>
      rename H into Hoff end.
    rewrite Hoff in *.
    rewrite (forEach_fixed _ (from_option (quiet false b (nid i)) true)).
    + by rewrite Hoff.
    + pose proof (IHc _ st Hoff Hb) as Hc. clear -Hc.
      induction elements as [|[x|] l IHl]; simpl in *.
      * constructor.
      * apply Forall_cons in Hc as [Hx Hl]. constructor; [done | by apply IHl].
      * constructor; [done | by apply IHl].
    + done.
  - (* ImportDeclaration *)
    pose proof (IHc _ st Hflag Hb) as Hc. apply Forall_app in Hc as [Hs Hsrc].
    rewrite (forEach_fixed _ (quiet flag b (nid i))) by done.
    by apply (Forall_inv Hsrc).
Qed.

(** *** The fresh editor *)

Lemma span_set_source a b src :
  span a b (set_source src) = chars (take (b - a) (drop a src)).
Proof.
  unfold span, set_source. destruct (decide (0 < length src)); simpl.
  - rewrite <- fmap_drop, <- fmap_take, <- list_fmap_compose. f_equal.
    generalize (take (b - a) (drop a src)). intros cs.
    induction cs as [|c cs IH]; [done|]. cbn. by f_equal.
  - destruct src; simpl in *; [|lia].
    rewrite drop_nil, take_nil. generalize (b - a). intros k.
    destruct a as [|a]; simpl.
    + destruct k as [|k]; [done|]. cbn. by rewrite take_nil.
    + by rewrite drop_nil, take_nil.
Qed.

Lemma span_new a b s f :
  span a b (new (Text s) f)
  = concat (list_ascii_of_string <$> take (b - a) (drop a (codePoints s))).
Proof.
  unfold new. rewrite span_set_source. unfold convert, chars.
  rewrite (list_fmap_compose char list_ascii_of_string).
  by rewrite fmap_take, fmap_drop, char_tagChars.
Qed.

Lemma text_new s f : text (new (Text s) f) = s.
Proof.
  unfold text, new. rewrite source_set_source, chars_convert_text.
  apply string_of_list_ascii_of_string.
Qed.

Lemma stratify_new s f : stratify (new (Text s) f) = (new (Text s) f, s).
Proof.
  unfold stratify. f_equal.
  - unfold new. by rewrite source_set_source.
  - unfold new at 1. rewrite source_set_source. apply text_new.
Qed.

Lemma length_lit s : length (lit s) = String.length s.
Proof. induction s; simpl; auto. Qed.

Lemma length_index_new s f :
  length (index (new (Text s) f)) = Nat.max 1 (length (codePoints s)).
Proof. unfold new. by rewrite length_set_source, length_convert_text. Qed.

(** *** Offsets in UTF-16 units and positions of code points *)

Lemma sum_list_cons (x : nat) l : sum_list (x :: l) = x + sum_list l.
Proof. done. Qed.

Lemma sliceFrom_past a b cps : forall offset,
  b <= offset -> sliceFrom offset a b cps = [].
Proof.
  induction cps as [|c cps IH]; intros offset Hb; simpl; [done|].
  rewrite decide_False by lia. apply IH. lia.
Qed.

(** Where every code point is one unit, offsets are positions. *)
Lemma sliceFrom_single a b cps : forall offset n,
  Forall (fun c => units c = 1) (take n cps) ->
  b <= offset + n ->
  sliceFrom offset a b cps
  = concat (list_ascii_of_string <$>
              take (b - Nat.max a offset) (drop (a - offset) cps)).
Proof.
  induction cps as [|c cps IH]; intros offset n Hsingle Hb; simpl.
  - by rewrite drop_nil, take_nil.
  - destruct n as [|n].
    + rewrite decide_False by lia. rewrite sliceFrom_past by lia.
      by replace (b - Nat.max a offset) with 0 by lia.
    + simpl in Hsingle. apply Forall_cons in Hsingle as [Hc Hsingle].
      rewrite Hc. rewrite (IH (offset + 1) n Hsingle) by lia.
      destruct (decide (a <= offset < b)) as [Hin|Hout].
      * replace (a - offset) with 0 by lia.
        replace (a - (offset + 1)) with 0 by lia. rewrite !drop_0.
        replace (b - Nat.max a offset) with (S (b - Nat.max a (offset + 1)))
          by lia.
        done.
      * destruct (decide (offset < a)) as [Hlt|Hge].
        -- replace (a - offset) with (S (a - (offset + 1))) by lia.
           by replace (Nat.max a (offset + 1)) with (Nat.max a offset) by lia.
        -- replace (b - Nat.max a (offset + 1)) with 0 by lia.
           by replace (b - Nat.max a offset) with 0 by lia.
Qed.

Lemma sliceFrom_all a b cps : forall offset,
  a <= offset -> offset + sum_list (units <$> cps) <= b ->
  sliceFrom offset a b cps = concat (list_ascii_of_string <$> cps).
Proof.
  induction cps as [|c cps IH]; intros offset Ha Hb; [done|].
  rewrite fmap_cons, sum_list_cons in Hb.
  rewrite fmap_cons. cbn [sliceFrom concat].
  rewrite IH by lia. f_equal.
  destruct c as [|lead c]; [by destruct (decide _)|].
  rewrite decide_True; [done|]. unfold units in Hb.
  destruct (240 <=? nat_of_ascii lead); lia.
Qed.

Lemma sliceFrom_rest b cps : forall offset n,
  Forall (fun c => units c = 1) (take n cps) ->
  offset + sum_list (units <$> cps) <= b ->
  sliceFrom offset (offset + n) b cps
  = concat (list_ascii_of_string <$> drop n cps).
Proof.
  induction cps as [|c cps IH]; intros offset n Hsingle Hb.
  - by rewrite drop_nil.
  - destruct n as [|n].
    + rewrite Nat.add_0_r, drop_0. by apply sliceFrom_all.
    + rewrite firstn_cons in Hsingle. apply Forall_cons in Hsingle as [Hc Hsingle].
      rewrite fmap_cons, sum_list_cons in Hb.
      cbn [sliceFrom drop]. rewrite decide_False by lia. rewrite Hc in *.
      replace (offset + S n) with (offset + 1 + n) by lia.
      rewrite (IH (offset + 1) n Hsingle) by lia. done.
Qed.

Lemma single_units_length cps n :
  Forall (fun c => units c = 1) (take n cps) ->
  n <= sum_list (units <$> cps) -> n <= length cps.
Proof.
  intros Hsingle Hn. destruct (decide (n <= length cps)) as [|Hgt]; [done|].
  rewrite take_ge in Hsingle by lia. exfalso. apply Hgt.
  assert (Hsum : sum_list (units <$> cps) = length cps).
  { clear -Hsingle. induction Hsingle as [|c cps Hc _ IH]; [done|].
    rewrite fmap_cons, sum_list_cons. cbn [length]. by rewrite Hc, IH. }
  lia.
Qed.

Lemma singleUnits_Forall n s :
  singleUnits n s = true ->
  Forall (fun c => units c = 1) (take n (codePoints s)).
Proof.
  unfold singleUnits. generalize (take n (codePoints s)). intros l.
  induction l as [|c l IH]; simpl; [constructor|].
  intros [Hc Hl]%andb_true_iff. constructor; [by apply Nat.eqb_eq | auto].
Qed.

(** *** The trailing return *)

Lemma returnLast_expression i stmts j e ed :
  lastOf stmts = Some (ExpressionStatement j e) ->
  start j < nodeEnd e <= length (index ed) ->
  exists ed', Transpiler.returnLast (BlockStatement i stmts) ed = Some ed' /\
    text ed' = string_of_list_ascii
      (span 0 (start j) ed ++ lit "return (" ++
       span (start j) (nodeEnd e) ed ++ lit ")" ++
       span (nodeEnd e) (length (index ed)) ed).
Proof.
  intros Hlast [Hlt Hle]. unfold Transpiler.returnLast. rewrite Hlast.
  destruct (prepend_span ed (start j) (Text "return (") ltac:(lia))
    as (ed1 & -> & Hsame1 & Hspan1).
  simpl. destruct Hsame1 as [Hlen1 Hsame1'].
  destruct (append_span ed1 (nodeEnd e) (Text ")") ltac:(lia) ltac:(lia))
    as (ed2 & -> & [Hlen2 _] & Hspan2).
  exists ed2. split; [done|]. rewrite text_span, Hlen2, Hlen1.
  rewrite (Hspan2 0 (length (index ed))) by lia.
  rewrite (Hspan1 0 (nodeEnd e)) by lia.
  rewrite (span_sameOutside (start j) (S (start j)) (nodeEnd e) _ ed ed1)
    by (done || lia).
  rewrite !chars_convert_text. by rewrite <- !app_assoc.
Qed.

Lemma returnLast_other i stmts ed :
  match lastOf stmts with
  | Some (ExpressionStatement _ _) => True
  | _ => Transpiler.returnLast (BlockStatement i stmts) ed = Some ed
  end.
Proof.
  unfold Transpiler.returnLast. destruct (lastOf stmts) as [[]|]; done.
Qed.

Lemma transpile_unfold parse src body ed :
  Transpiler.passes parse src = Some (body, ed) ->
  Transpiler.transpile parse src = text <$> Transpiler.returnLast body ed.
Proof.
  intros Hp. unfold Transpiler.transpile. rewrite Hp. cbn [mbind option_bind].
  by destruct (Transpiler.returnLast body ed).
Qed.

(** X23.  When both passes have run and the wrapper body ends in an
    expression statement, [transpile] returns the text of the editor with
    [return (] inserted before the index node at the statement's start
    offset and [)] after the index node before the offset of its
    expression's end; when the body is empty or ends in any other statement,
    it returns the text of the editor unchanged. *)
Theorem trailing_expression_becomes_return parse src i stmts ed :
  Transpiler.passes parse src = Some (BlockStatement i stmts, ed) ->
  match lastOf stmts with
  | Some (ExpressionStatement j e) =>
      start j < nodeEnd e <= length (index ed) ->
      Transpiler.transpile parse src = Some (string_of_list_ascii
        (span 0 (start j) ed ++ lit "return (" ++
         span (start j) (nodeEnd e) ed ++ lit ")" ++
         span (nodeEnd e) (length (index ed)) ed))
  | _ => Transpiler.transpile parse src = Some (text ed)
  end.
Proof.
  intros Hp. rewrite (transpile_unfold _ _ _ _ Hp).
  pose proof (returnLast_other i stmts ed) as Hother.
  destruct (lastOf stmts) as [last|] eqn:Hlast.
  - destruct last; try (by rewrite Hother).
    intros Hrange.
    destruct (returnLast_expression i stmts _ _ ed Hlast Hrange)
      as (ed' & -> & Htext).
    simpl. by rewrite Htext.
  - by rewrite Hother.
Qed.

Lemma trailing_expression_becomes_return_witness :
  Transpiler.transpile (Sample.parserOf Sample.quietCell Sample.quietStmts)
    Sample.quietCell
  = Some (Transpiler.wrapSource "{ let x = 1; } return (f(x))").
Proof.
  eassert (Hp : Transpiler.passes
                  (Sample.parserOf Sample.quietCell Sample.quietStmts)
                  Sample.quietCell = Some (BlockStatement _ _, _))
    by (vm_compute; reflexivity).
  pose proof (trailing_expression_becomes_return _ _ _ _ _ Hp) as H.
  cbn [lastOf Sample.quietStmts fmap list_fmap List.last] in H.
  rewrite H; [vm_compute; reflexivity | vm_compute; lia].
Defined.

(** *** The trailing return after a character outside the BMP *)

(** C5 at a cell with a character outside the Basic Multilingual Plane: the
    string literal holding U+1F600, followed by the statement [f(x)].  The
    parser counts the character as two units and the index holds it as one
    node, so [return (] is inserted one character late, after the [f], and
    [)] after the line break that follows the cell, instead of
    [return (f(x))].  With four such characters in the literal the offset of
    the expression's end lies past the index, and [transpile] throws. *)
Theorem trailing_return_misplaced_after_astral_character :
  lastOf Sample.astralStmts
  = Some (ExpressionStatement (Sample.at_ 12 6 10)
            (Generic "CallExpression" (Sample.at_ 13 6 10)
               [Identifier (Sample.at_ 14 6 7) "f";
                Identifier (Sample.at_ 15 8 9) "x"])) /\
  slice 48 52 (Transpiler.wrapSource Sample.astralCell) = lit "f(x)" /\
  Transpiler.transpile (Sample.parserOf Sample.astralCell Sample.astralStmts)
    Sample.astralCell
  = Some ("(async (__global, __import, console) => {" ++ Transpiler.newline ++
          Sample.quoted Sample.astral ++ "; freturn ((x)" ++
          Transpiler.newline ++ ")})")%string /\
  Transpiler.transpile (Sample.parserOf Sample.astralCell Sample.astralStmts)
    Sample.astralCell
  <> Some (Transpiler.wrapSource
             (Sample.quoted Sample.astral ++ "; return (f(x))")%string) /\
  Transpiler.transpile (Sample.parserOf Sample.astralsCell Sample.astralsStmts)
    Sample.astralsCell
  = None.
Proof. repeat split; by vm_compute. Qed.

(** *** Cells that the passes leave alone *)

Lemma passes_quiet parse src root i stmts :
  Transpiler.parseAsyncWrapped parse (Transpiler.wrapSource src)
    = Some (BlockStatement i stmts, root) ->
  importFree (BlockStatement i stmts) = true ->
  forallb (quiet false (nid i) (nid i)) stmts = true ->
  Transpiler.passes parse src
    = Some (BlockStatement i stmts, new (Text (Transpiler.wrapSource src)) None).
Proof.
  intros Hparse Hfree Hquiet. unfold Transpiler.passes.
  rewrite Hparse. cbn [mbind option_bind].
  rewrite (importFree_walk _ _ Hfree). cbn [mbind option_bind].
  rewrite stratify_new, Hparse. cbn [mbind option_bind].
  cbn [ScopePass.walk ScopePass.enter].
  rewrite (forEach_fixed _ (quiet false (nid i) (nid i))); [done| |done].
  apply Forall_forall. intros c _ Hc.
  by apply (quiet_walk c false (nid i) (nid i)).
Qed.

(** C6, as amended.  A cell that parses, contains no import statement, no
    function declaration and no [var] declaration at any depth outside
    function and method bodies, and no [let], [const] or [class]
    declaration directly in the wrapper body, is returned as the wrapped
    source when it does not end in an expression statement.  When it does,
    and no character before the end of that expression lies outside the
    Basic Multilingual Plane, the wrapped source is returned with the
    expression rewritten into [return (...)]: every other character, the
    wrapper prefix and suffix included, is emitted unchanged.  The offsets
    of the statement are those of a parser: UTF-16 offsets inside the
    text. *)
Theorem quiet_cell_differs_only_by_return parse src root i stmts :
  Transpiler.parseAsyncWrapped parse (Transpiler.wrapSource src)
    = Some (BlockStatement i stmts, root) ->
  importFree (BlockStatement i stmts) = true ->
  forallb (quiet false (nid i) (nid i)) stmts = true ->
  match lastOf stmts with
  | Some (ExpressionStatement j e) =>
      singleUnits (nodeEnd e) (Transpiler.wrapSource src) = true ->
      start j < nodeEnd e <= utf16Length (Transpiler.wrapSource src) ->
      Transpiler.transpile parse src = Some (string_of_list_ascii
        (slice 0 (start j) (Transpiler.wrapSource src) ++ lit "return (" ++
         slice (start j) (nodeEnd e) (Transpiler.wrapSource src) ++ lit ")" ++
         slice (nodeEnd e) (utf16Length (Transpiler.wrapSource src))
           (Transpiler.wrapSource src)))
  | _ => Transpiler.transpile parse src = Some (Transpiler.wrapSource src)
  end.
Proof.
  intros Hparse Hfree Hquiet.
  pose proof (passes_quiet parse src root i stmts Hparse Hfree Hquiet) as Hp.
  rewrite (transpile_unfold _ _ _ _ Hp).
  remember (Transpiler.wrapSource src) as w eqn:Hw. clear Hw.
  pose proof (returnLast_other i stmts (new (Text w) None)) as Hother.
  destruct (lastOf stmts) as [last|] eqn:Hlast.
  - destruct last; try (by rewrite Hother; simpl; rewrite text_new).
    intros Hsingle%singleUnits_Forall Hrange. unfold utf16Length in *.
    pose proof (single_units_length _ _ Hsingle ltac:(lia)) as Hlen.
    destruct (returnLast_expression i stmts _ _ (new (Text w) None) Hlast)
      as (ed' & -> & Htext); [rewrite length_index_new; lia|].
    simpl. rewrite Htext. do 2 f_equal.
    rewrite !span_new, length_index_new. unfold slice.
    rewrite (sliceFrom_single 0 (start i0) (codePoints w) 0 (nodeEnd last0))
      by (done || lia).
    rewrite (sliceFrom_single (start i0) (nodeEnd last0) (codePoints w) 0
               (nodeEnd last0)) by (done || lia).
    rewrite (sliceFrom_rest _ (codePoints w) 0 (nodeEnd last0)) by (done || lia).
    rewrite !Nat.max_0_r, !Nat.sub_0_r, drop_0.
    rewrite (take_ge (drop (nodeEnd last0) (codePoints w)))
      by (rewrite length_drop; lia).
    done.
  - rewrite Hother. simpl. by rewrite text_new.
Qed.

Lemma quiet_cell_differs_only_by_return_witness :
  Transpiler.transpile (Sample.parserOf Sample.quietCell Sample.quietStmts)
    Sample.quietCell
  = Some (Transpiler.wrapSource "{ let x = 1; } return (f(x))") /\
  Transpiler.transpile (Sample.parserOf Sample.ifCell Sample.ifStmts)
    Sample.ifCell
  = Some (Transpiler.wrapSource Sample.ifCell).
Proof.
  split.
  - eassert (Hp : Transpiler.parseAsyncWrapped
                    (Sample.parserOf Sample.quietCell Sample.quietStmts)
                    (Transpiler.wrapSource Sample.quietCell)
                  = Some (BlockStatement _ _, _))
      by (vm_compute; reflexivity).
    pose proof (quiet_cell_differs_only_by_return _ _ _ _ _ Hp
                  ltac:(by vm_compute) ltac:(by vm_compute)) as H.
    cbn [lastOf Sample.quietStmts fmap list_fmap List.last] in H.
    rewrite H; [vm_compute; reflexivity | vm_compute; reflexivity
               | vm_compute; lia].
  - eassert (Hp : Transpiler.parseAsyncWrapped
                    (Sample.parserOf Sample.ifCell Sample.ifStmts)
                    (Transpiler.wrapSource Sample.ifCell)
                  = Some (BlockStatement _ _, _))
      by (vm_compute; reflexivity).
    exact (quiet_cell_differs_only_by_return _ _ _ _ _ Hp
             ltac:(by vm_compute) ltac:(by vm_compute)).
Defined.

(** C6 as the specification states it fails in two ways.  The cell
    [{ let x = 1; var y = 2; }] has no import and no declaration directly in
    the wrapper body, its last statement is a block, and the [var] inside
    the block is rewritten.  And the cell that holds U+1F600 four times in a
    string literal, followed by [f(x)], has no import and no declaration at
    all, and [transpile] throws. *)
Lemma nested_var_rewritten_and_astral_cell_rejected :
  (importFree (BlockStatement (mkInfo 3 40 69) Sample.blockStmts) = true /\
   noTopLevelDeclarations Sample.blockStmts = true /\
   lastOf Sample.blockStmts = Some Sample.innerBlock /\
   Transpiler.transpile (Sample.parserOf Sample.blockCell Sample.blockStmts)
     Sample.blockCell
   = Some (Transpiler.wrapSource "{ let x = 1; void ((__global.y = 2)); }") /\
   Transpiler.wrapSource "{ let x = 1; void ((__global.y = 2)); }"
     <> Transpiler.wrapSource Sample.blockCell) /\
  (importFree (BlockStatement (mkInfo 3 40 60) Sample.astralsStmts) = true /\
   noTopLevelDeclarations Sample.astralsStmts = true /\
   forallb (quiet false 3 3) Sample.astralsStmts = true /\
   Transpiler.transpile
     (Sample.parserOf Sample.astralsCell Sample.astralsStmts)
     Sample.astralsCell
   = None).
Proof. repeat split; by vm_compute. Qed.

(** *** Class declarations *)

(** C3 at the cell [class C {}]: the class declaration is directly in the
    wrapper body, and the emitted statement is [__global.C=class C {});],
    with a closing parenthesis that nothing opens; the statement that the
    specification describes is balanced. *)
Theorem class_declaration_emits_unbalanced_text :
  Transpiler.transpile (Sample.parserOf Sample.classCell Sample.classStmts)
    Sample.classCell
  = Some (Transpiler.wrapSource "__global.C=class C {});") /\
  balanced "__global.C=class C {});" = false /\
  balanced "__global.C = (class C {});" = true.
Proof. repeat split; by vm_compute. Qed.

(** *** Variable declarations: whether they are translated *)








End WalkFacts.

(** * Chains of rewritten regions *)

Section ChainFacts.

Import SourceEditor.

Context {A : Type} (lo hi : A -> nat).







(** A loop whose steps each rewrite the region of their element. *)
Section Loop.

Context {S : Type} (f : A -> S -> option S) (get : S -> SourceEditor.t).
Context (Inv : S -> Prop) (ok : A -> Prop).
Context (txt : SourceEditor.t -> A -> list ascii).

Hypothesis step : forall x s,
  ok x -> Inv s -> lo x < hi x -> hi x <= length (index (get s)) ->
  exists s', f x s = Some s' /\ Inv s' /\
    sameOutside (lo x) (hi x) (get s) (get s') /\
    span (lo x) (hi x) (get s') = txt (get s) x.

Hypothesis txt_local : forall x e e',
  ok x ->
  (forall i, lo x <= i < hi x -> index e' !! i = index e !! i) ->
  txt e' x = txt e x.


End Loop.

End ChainFacts.

(** * Translated declarations *)

Section DeclarationFacts.

Import SourceEditor.









End DeclarationFacts.

(** * Rewritten imports *)

Section ImportFacts.

Import SourceEditor.











End ImportFacts.

(** * More about the editor: edits as values *)

Section EditFacts.

Import SourceEditor.

Lemma clearFrom_out_of_range count : forall from idx,
  length idx < from + count -> 0 < count -> clearFrom from count idx = None.
Proof.
  induction count as [|k IH]; intros from idx Hlen Hpos; [lia|]. simpl.
  unfold onNode. destruct (idx !! from) as [x|] eqn:Hx; [|done]. simpl.
  apply lookup_lt_Some in Hx. apply IH; [rewrite length_alter; lia | lia].
Qed.

Lemma alter_imap (f : EditNode.t -> EditNode.t) (s : nat) (l : list EditNode.t) :
  alter f s l = imap (fun i n => if decide (i = s) then f n else n) l.
Proof.
  apply list_eq. intros i. rewrite list_lookup_imap.
  destruct (decide (i = s)) as [->|Hne].
  - rewrite list_lookup_alter_eq. destruct (l !! s); simpl; [|done].
    by rewrite ?decide_True.
  - rewrite list_lookup_alter_ne by done. destruct (l !! i); simpl; [|done].
    by rewrite ?decide_False.
Qed.

(** An edit in range rewrites every node by [editNode]; out of range it
    throws. *)
Lemma runEdit_in_range op ed :
  inRange op (length (index ed)) ->
  runEdit op ed = Some (mk (imap (editNode op) (index ed))).
Proof.
  destruct op as [s e str | s str | e str]; simpl.
  - intros [Hs He].
    destruct (replace_lookup ed s e str Hs He) as (ed' & -> & Hl & Hi).
    f_equal. destruct ed' as [idx']. f_equal. simpl in *.
    apply list_eq. intros i. rewrite Hi, list_lookup_imap.
    destruct (index ed !! i) as [n|] eqn:Hn; simpl.
    + by repeat case_decide.
    + apply lookup_ge_None in Hn. repeat case_decide; try lia; done.
  - intros Hs. unfold prepend. rewrite onNode_Some by done. simpl.
    by rewrite alter_imap.
  - intros [H0 He]. destruct e as [|k]; [lia|]. unfold append.
    rewrite onNode_Some by lia. simpl. rewrite alter_imap. do 2 f_equal.
    apply imap_ext. intros i n _. simpl. by repeat case_decide; try lia.
Qed.

Lemma runEdit_out_of_range op ed :
  ~ inRange op (length (index ed)) -> runEdit op ed = None.
Proof.
  destruct op as [s e str | s str | e str]; simpl; intros Hout.
  - unfold replace, onNode. destruct (index ed !! s) as [x|] eqn:Hx; [|done].
    apply lookup_lt_Some in Hx. simpl.
    rewrite clearFrom_out_of_range; [done | rewrite length_alter; lia | lia].
  - unfold prepend, onNode. destruct (index ed !! s) as [x|] eqn:Hx; [|done].
    apply lookup_lt_Some in Hx. lia.
  - destruct e as [|k]; [done|]. unfold append, onNode.
    destruct (index ed !! k) as [x|] eqn:Hx; [|done].
    apply lookup_lt_Some in Hx. lia.
Qed.

Lemma inRange_dec op len : {inRange op len} + {~ inRange op len}.
Proof.
  destruct op; simpl; match goal with |- {?P} + {_} => exact (decide P) end.
Qed.

Lemma editNode_outside op i n :
  i < touchedFrom op \/ touchedTo op <= i -> editNode op i n = n.
Proof.
  destruct op; simpl; intros Hi; repeat case_decide; try lia; done.
Qed.

(** X1.  An edit returns exactly when its offsets address nodes of the
    index: [replace(start, end, str)] needs [start < index.length] and
    [end <= index.length], [prepend] needs [start < index.length], and
    [append] needs [0 < end <= index.length]; otherwise it throws. *)
Theorem edit_returns_iff_in_range op ed :
  is_Some (runEdit op ed) <-> inRange op (length (index ed)).
Proof.
  split.
  - intros [ed' Hed']. destruct (inRange_dec op (length (index ed))) as [|Hout];
      [done|]. by rewrite runEdit_out_of_range in Hed'.
  - intros Hin. rewrite runEdit_in_range by done. by eexists.
Qed.

(** X2.  An edit that returns keeps the number of nodes and every node
    outside the positions it addresses: offsets computed before the edit
    still address the same nodes after it. *)
Theorem edit_keeps_other_nodes op ed ed' :
  runEdit op ed = Some ed' ->
  sameOutside (touchedFrom op) (touchedTo op) ed ed'.
Proof.
  intros Hrun.
  destruct (inRange_dec op (length (index ed))) as [Hin|Hout];
    [|by rewrite runEdit_out_of_range in Hrun].
  rewrite runEdit_in_range in Hrun by done. injection Hrun as <-.
  split; simpl; [apply length_imap|].
  intros i Hi. rewrite list_lookup_imap.
  destruct (index ed !! i) as [n|]; simpl; [|done].
  by rewrite editNode_outside.
Qed.

Lemma edit_keeps_other_nodes_witness :
  sameOutside 1 3 (new (Text "abcd") None)
    (mk (imap (editNode (Replace 1 3 (Text "xy"))) (index (new (Text "abcd") None)))).
Proof.
  apply (edit_keeps_other_nodes (Replace 1 3 (Text "xy")) (new (Text "abcd") None)).
  reflexivity.
Defined.

(** X3.  The text after an edit in range is the text before it with the
    inserted characters spliced in: [prepend] and [append] insert them before
    node [start] and after node [end - 1], and [replace] puts them in place
    of the text of the nodes [start <= i < max end (start + 1)]. *)
Theorem edit_splices_text op ed :
  inRange op (length (index ed)) ->
  exists ed', runEdit op ed = Some ed' /\
    text ed' = string_of_list_ascii
      (span 0 (insertAt op) ed ++ inserted op ++
       span (resumeAt op) (length (index ed)) ed).
Proof.
  intros Hin. destruct op as [s e str | s str | e str]; simpl in *.
  - destruct Hin as [Hs He].
    destruct (replace_span ed s e str Hs He) as (ed' & -> & Hsame & Hspan).
    exists ed'. split; [done|]. rewrite text_span, (proj1 Hsame).
    rewrite (span_split 0 s), (span_split s (Nat.max e (S s))) by lia.
    rewrite Hspan.
    by rewrite (span_sameOutside _ _ 0 s ed ed' Hsame),
      (span_sameOutside _ _ (Nat.max e (S s)) _ ed ed' Hsame) by lia.
  - destruct (prepend_span ed s str Hin) as (ed' & -> & Hsame & Hspan).
    exists ed'. split; [done|]. rewrite text_span, (proj1 Hsame).
    by rewrite (Hspan 0 (length (index ed))) by lia.
  - destruct Hin as [H0 He].
    destruct (append_span ed e str H0 He) as (ed' & -> & Hsame & Hspan).
    exists ed'. split; [done|]. rewrite text_span, (proj1 Hsame).
    by rewrite (Hspan 0 (length (index ed))) by lia.
Qed.

Lemma edit_splices_text_witness :
  exists ed', runEdit (Replace 1 3 (Text "xy")) (new (Text "abcd") None) = Some ed' /\
    text ed' = "axyd".
Proof.
  destruct (edit_splices_text (Replace 1 3 (Text "xy")) (new (Text "abcd") None))
    as (ed' & Hrun & Htext); [vm_compute; lia|].
  exists ed'. split; [exact Hrun|]. rewrite Htext. vm_compute. reflexivity.
Defined.

Lemma runEdit_length op ed ed' :
  runEdit op ed = Some ed' -> length (index ed') = length (index ed).
Proof.
  intros Hrun.
  destruct (inRange_dec op (length (index ed))) as [Hin|Hout];
    [|by rewrite runEdit_out_of_range in Hrun].
  rewrite runEdit_in_range in Hrun by done. injection Hrun as <-.
  apply length_imap.
Qed.

Lemma runEdit_twice a b ed :
  inRange a (length (index ed)) -> inRange b (length (index ed)) ->
  runEdit a ed ≫= runEdit b
  = Some (mk (imap (fun i n => editNode b i (editNode a i n)) (index ed))).
Proof.
  intros Ha Hb. rewrite (runEdit_in_range a ed Ha). cbn [mbind option_bind].
  rewrite runEdit_in_range by (simpl; by rewrite length_imap). simpl.
  do 2 f_equal. apply list_eq. intros i. rewrite !list_lookup_imap.
  by destruct (index ed !! i).
Qed.

Lemma runEdit_then_fails a b ed :
  ~ inRange a (length (index ed)) -> runEdit b ed ≫= runEdit a = None.
Proof.
  intros Hout. destruct (runEdit b ed) as [ed1|] eqn:Hb; [|done]. simpl.
  apply runEdit_out_of_range.
  by rewrite (runEdit_length _ _ _ Hb).
Qed.

Lemma edits_commute_pointwise a b ed :
  (forall i n, editNode b i (editNode a i n) = editNode a i (editNode b i n)) ->
  runEdit a ed ≫= runEdit b = runEdit b ed ≫= runEdit a.
Proof.
  intros Hcomm.
  destruct (inRange_dec a (length (index ed))) as [Ha|Ha].
  - destruct (inRange_dec b (length (index ed))) as [Hb|Hb].
    + rewrite !runEdit_twice by done. do 2 f_equal.
      apply imap_ext. intros i n _. apply Hcomm.
    + rewrite (runEdit_then_fails b a ed Hb).
      by rewrite (runEdit_out_of_range b ed Hb).
  - rewrite (runEdit_then_fails a b ed Ha).
    by rewrite (runEdit_out_of_range a ed Ha).
Qed.

(** X4.  Two edits that address disjoint ranges of nodes can be applied in
    either order: both orders throw or both return the same editor. *)
Theorem disjoint_edits_commute a b ed :
  touchedTo a <= touchedFrom b \/ touchedTo b <= touchedFrom a ->
  runEdit a ed ≫= runEdit b = runEdit b ed ≫= runEdit a.
Proof.
  intros Hdisj. apply edits_commute_pointwise. intros i n.
  destruct (decide (touchedFrom a <= i < touchedTo a)) as [Hia|Hia].
  - rewrite !(editNode_outside b) by lia. done.
  - rewrite !(editNode_outside a) by lia. done.
Qed.

Lemma disjoint_edits_commute_witness :
  runEdit (Replace 0 2 (Text "x")) (new (Text "abcd") None)
    ≫= runEdit (Prepend 3 (Text "y"))
  = runEdit (Prepend 3 (Text "y")) (new (Text "abcd") None)
    ≫= runEdit (Replace 0 2 (Text "x")).
Proof.
  apply (disjoint_edits_commute (Replace 0 2 (Text "x")) (Prepend 3 (Text "y"))).
  left. simpl. lia.
Defined.

(** X5.  A [prepend] and an [append] can be applied in either order, also
    when they address the same node: the prepended text stays first and the
    appended text last. *)
Theorem prepend_append_commute start x end_ y ed :
  runEdit (Prepend start x) ed ≫= runEdit (Append end_ y)
  = runEdit (Append end_ y) ed ≫= runEdit (Prepend start x).
Proof.
  apply edits_commute_pointwise. intros i n. simpl.
  repeat case_decide; try done.
  unfold EditNode.append, EditNode.prepend. simpl. by rewrite app_assoc.
Qed.

(** X6.  [replace] is a total reset of the nodes it addresses: whatever
    earlier edits left in the nodes [start <= i < max end (start + 1)] does
    not show in its result. *)
Theorem replace_forgets_its_span start end_ str ed ed' :
  sameOutside start (Nat.max end_ (S start)) ed ed' ->
  runEdit (Replace start end_ str) ed' = runEdit (Replace start end_ str) ed.
Proof.
  intros [Hlen Hsame].
  destruct (inRange_dec (Replace start end_ str) (length (index ed))) as [Hin|Hout].
  - rewrite !runEdit_in_range by (by rewrite ?Hlen). do 2 f_equal.
    apply list_eq. intros i. rewrite !list_lookup_imap.
    destruct (decide (start <= i < Nat.max end_ (S start))) as [Hi|Hi].
    + pose proof (lookup_lt_is_Some_2 (index ed) i) as [n Hn];
        [simpl in Hin; lia|].
      pose proof (lookup_lt_is_Some_2 (index ed') i) as [n' Hn'];
        [simpl in Hin; lia|].
      rewrite Hn, Hn'. simpl. repeat case_decide; try done; lia.
    + by rewrite Hsame by lia.
  - rewrite !runEdit_out_of_range by (by rewrite ?Hlen). done.
Qed.

Lemma replace_forgets_its_span_witness :
  runEdit (Prepend 1 (Text "zz")) (new (Text "abcd") None)
    ≫= runEdit (Replace 1 3 (Text "xy"))
  = runEdit (Replace 1 3 (Text "xy")) (new (Text "abcd") None).
Proof.
  change (runEdit (Prepend 1 (Text "zz")) (new (Text "abcd") None)
            ≫= runEdit (Replace 1 3 (Text "xy")))
    with (runEdit (Replace 1 3 (Text "xy"))
            (mk (imap (editNode (Prepend 1 (Text "zz")))
                   (index (new (Text "abcd") None))))).
  apply replace_forgets_its_span. split; [reflexivity|].
  intros i Hi. simpl. destruct Hi as [Hi|Hi].
  - destruct i as [|i]; [reflexivity | lia].
  - destruct i as [|[|[|[|i]]]]; try lia; reflexivity.
Defined.

(** *** Sources and the index *)

(** X7.  [convert] tags the characters of a text in order: the [k]-th
    character, which is the [k]-th code point of the text, is tagged with
    position [k] and with the file; a source that is already tagged is
    returned as it is, so converting twice is the same as converting
    once. *)
Theorem convert_tags_in_order s f f' :
  chars (convert (Text s) f) = lit s /\
  char <$> convert (Text s) f = codePoints s /\
  pos <$> convert (Text s) f = Some <$> seq 0 (length (codePoints s)) /\
  file <$> convert (Text s) f = replicate (length (codePoints s)) f /\
  convert (Tagged (convert (Text s) f)) f' = convert (Text s) f.
Proof.
  split; [apply chars_convert_text|]. split; [apply char_tagChars|].
  split; [|split; [|done]].
  - unfold convert, tagChars. rewrite fmap_imap.
    apply (imap_seq_0 (codePoints s) (fun j => Some j)).
  - unfold convert, tagChars. rewrite fmap_imap.
    rewrite (imap_ext _ (const (fun _ => f))) by done.
    rewrite imap_const. by apply const_fmap.
Qed.

(** X8.  Building an editor and reading it back is the identity: [source]
    of a new editor is the converted source, and [text()] of an editor built
    from a text is that text. *)
Theorem new_editor_reads_back src s f :
  source (new src f) = convert src f /\ text (new (Text s) f) = s.
Proof.
  split.
  - unfold new. apply source_set_source.
  - unfold text, new. rewrite source_set_source, chars_convert_text.
    apply string_of_list_ascii_of_string.
Qed.

(** X9.  After [stratify()] every node holds at most one character, and
    stratifying again changes neither the index nor the text. *)
Theorem stratify_is_idempotent ed :
  Forall (fun n => length (EditNode.current n) <= 1) (index (stratify ed).1) /\
  stratify (stratify ed).1 = stratify ed.
Proof.
  split.
  - unfold stratify, set_source. simpl. case_decide; simpl.
    + apply Forall_fmap, Forall_forall. intros c _. simpl. lia.
    + repeat constructor.
  - unfold stratify. simpl. by rewrite !source_set_source.
Qed.

(** X10.  The index is never empty, so [first()] and [last()] are always
    defined: on the index built from a source they are the nodes of its
    first and of its last character, and the empty node for the empty
    source. *)
Theorem first_and_last_are_defined src :
  first (set_source src) = Some (EditNode.mk (take 1 src)) /\
  last (set_source src) = Some (EditNode.mk (drop (length src - 1) src)).
Proof.
  unfold first, last, set_source. case_decide as Hlen; simpl.
  - rewrite length_fmap. destruct src as [|c src]; [simpl in Hlen; lia|].
    split; [done|]. cbn [length]. replace (S (length src) - 1) with (length src) by lia.
    rewrite list_lookup_fmap.
    destruct (lookup_lt_is_Some_2 (c :: src) (length src)) as [x Hx];
      [simpl; lia|].
    rewrite Hx. simpl. unfold EditNode.new. simpl. do 2 f_equal.
    rewrite (drop_S _ _ _ Hx). rewrite drop_ge by (simpl; lia). done.
  - destruct src; [done | simpl in Hlen; lia].
Qed.

End EditFacts.

(** * Invariants of the two passes *)

Section PassInvariants.

Import SourceEditor.

(** X11.  The wrapped visitors push a node on the ancestors once: entering
    a node that is already on top (a category visitor followed by the
    visitor of the node's kind) leaves the stack as it is, and after
    entering, the node is on top. *)
Theorem enter_pushes_once n ancestors :
  ScopePass.enter n (ScopePass.enter n ancestors) = ScopePass.enter n ancestors /\
  exists top rest,
    ScopePass.enter n ancestors = top :: rest /\ sameNode n top = true /\
    (rest = ancestors \/ top :: rest = ancestors).
Proof.
  assert (Hrefl : sameNode n n = true) by apply Nat.eqb_refl.
  destruct ancestors as [|a anc]; simpl.
  - rewrite Hrefl. split; [done|]. exists n, []. auto.
  - destruct (sameNode n a) eqn:Ha; simpl.
    + rewrite Ha. split; [done|]. exists a, anc. auto.
    + rewrite Hrefl. split; [done|]. exists n, (a :: anc). auto.
Qed.

Lemma forEach_invariant {A S : Type} (R : S -> S -> Prop) (f : A -> S -> option S)
    (l : list A) :
  (forall s, R s s) -> (forall s1 s2 s3, R s1 s2 -> R s2 s3 -> R s1 s3) ->
  Forall (fun x => forall s s', f x s = Some s' -> R s s') l ->
  forall s s', forEach f l s = Some s' -> R s s'.
Proof.
  intros Hrefl Htrans. induction 1 as [|x l Hx _ IH]; intros s s'; simpl.
  - intros [= ->]. apply Hrefl.
  - destruct (f x s) as [s1|] eqn:Hf; [|done]. intros Hrest.
    eapply Htrans; [by apply Hx | by apply IH].
Qed.

Lemma whenSome_invariant {A S : Type} (R : S -> S -> Prop) (f : A -> S -> option S)
    (o : option A) :
  (forall s, R s s) ->
  Forall (fun x => forall s s', f x s = Some s' -> R s s') (option_list o) ->
  forall s s', whenSome f o s = Some s' -> R s s'.
Proof.
  intros Hrefl Ho s s'. destruct o as [x|]; simpl.
  - apply (Forall_inv Ho).
  - intros [= ->]. apply Hrefl.
Qed.

Lemma replace_length s e str ed ed' :
  replace s e str ed = Some ed' -> length (index ed') = length (index ed).
Proof. apply (runEdit_length (Replace s e str)). Qed.

Lemma prepend_length s str ed ed' :
  prepend s str ed = Some ed' -> length (index ed') = length (index ed).
Proof. apply (runEdit_length (Prepend s str)). Qed.

Lemma append_length e str ed ed' :
  append e str ed = Some ed' -> length (index ed') = length (index ed).
Proof. apply (runEdit_length (Append e str)). Qed.

Lemma commas_length rest : forall cur ed cur' ed',
  ImportPass.commas cur rest ed = Some (cur', ed') ->
  length (index ed') = length (index ed).
Proof.
  induction rest as [|s rest IH]; intros cur ed cur' ed'; simpl.
  - by intros [= _ ->].
  - destruct (replace _ _ _ ed) as [e1|] eqn:H1; [|done]. simpl. intros H2.
    rewrite (IH _ _ _ _ H2). by eapply replace_length.
Qed.

(** Unfolds one monadic step [x ← m; k] of a hypothesis. *)
Ltac step_in H :=
  match type of H with
  | (?m ≫= _) = Some _ =>
      let e := fresh "e" in let He := fresh "He" in
      destruct m as [e|] eqn:He; [cbn [mbind option_bind] in H | done]
  | (_ <$> ?m) = Some _ =>
      let e := fresh "e" in let He := fresh "He" in
      destruct m as [e|] eqn:He; [cbn [fmap option_fmap option_map] in H | done]
  end.

Lemma rewriteDeclaration_length n spec src ed ed' :
  ImportPass.rewriteDeclaration n spec src ed = Some ed' ->
  length (index ed') = length (index ed).
Proof.
  unfold ImportPass.rewriteDeclaration. destruct spec as [|first rest]; intros H.
  - step_in H. rewrite (replace_length _ _ _ _ _ H).
    by eapply replace_length.
  - step_in H. step_in H. destruct e0 as [cur e1]. step_in H.
    rewrite (replace_length _ _ _ _ _ H), (replace_length _ _ _ _ _ He1),
      (commas_length _ _ _ _ _ He0).
    by eapply replace_length.
Qed.

Lemma rewriteSpecifier_length n imported local ed ed' :
  ImportPass.rewriteSpecifier n imported local ed = Some ed' ->
  length (index ed') = length (index ed).
Proof.
  unfold ImportPass.rewriteSpecifier. intros H. step_in H. step_in H.
  rewrite (append_length _ _ _ _ H). case_decide.
  - rewrite (replace_length _ _ _ _ _ He0). by eapply prepend_length.
  - injection He0 as <-. by eapply prepend_length.
Qed.

(** X12.  The import pass never adds or removes a node of the index: when
    it returns, the index has the length it had, so the offsets of the parse
    tree address the same nodes throughout the walk. *)
Theorem import_pass_keeps_index_length n :
  forall ed ed', ImportPass.walk n ed = Some ed' ->
    length (index ed') = length (index ed).
Proof.
  induction n as [n IH] using node_deep_ind.
  set (R := fun ed ed' : SourceEditor.t => length (index ed') = length (index ed)).
  assert (Hrefl : forall e, R e e) by done.
  assert (Htrans : forall e1 e2 e3, R e1 e2 -> R e2 e3 -> R e1 e3)
    by (unfold R; congruence).
  assert (IHc : Forall (fun c => forall e e', ImportPass.walk c e = Some e' -> R e e')
                  (children n)).
  { eapply Forall_impl; [exact IH|]. simpl. intros c [Hc _]. exact Hc. }
  intros ed ed'. change (ImportPass.walk n ed = Some ed' -> R ed ed').
  destruct n; cbn [ImportPass.walk children] in *;
    try (by intros [= ->]);
    try (by apply (forEach_invariant R)).
  - (* ExpressionStatement *) by apply (Forall_inv IHc).
  - (* VariableDeclarator *)
    destruct (ImportPass.walk n ed) as [e1|] eqn:H1; [|done]. intros H2.
    eapply Htrans; [by apply (Forall_inv IHc)|].
    apply (whenSome_invariant R ImportPass.walk init Hrefl); [|done].
    by apply Forall_inv_tail in IHc.
  - (* ClassDeclaration *)
    destruct (ImportPass.walk n ed) as [e1|] eqn:H1; [|done].
    destruct (whenSome ImportPass.walk superClass e1) as [e2|] eqn:H2; [|done].
    intros H3. apply Forall_cons in IHc as [Hid Hrest].
    apply Forall_app in Hrest as [Hsup Hbody].
    eapply Htrans; [by apply Hid|]. eapply Htrans.
    + by apply (whenSome_invariant R ImportPass.walk superClass Hrefl Hsup e1 e2).
    + by apply (forEach_invariant R ImportPass.walk classBody Hrefl Htrans Hbody).
  - (* ObjectPattern *)
    apply (forEach_invariant R); [done | done |].
    eapply Forall_impl; [exact IH|]. simpl. intros c [_ Hc] e e'.
    destruct c; try done. cbn [children] in Hc.
    apply (Forall_inv (Forall_inv_tail Hc)).
  - (* Property *)
    pose proof (Forall_inv IHc) as Hk.
    pose proof (Forall_inv (Forall_inv_tail IHc)) as Hv.
    destruct computed.
    + destruct (ImportPass.walk n1 ed) as [e1|] eqn:H1; [|done]. intros H2.
      eapply Htrans; [by apply Hk | by apply Hv].
    + apply Hv.
  - (* ArrayPattern *)
    apply (forEach_invariant R); [done | done |].
    clear -IHc Hrefl. induction elements as [|[x|] l IHl]; simpl in *.
    + constructor.
    + apply Forall_cons in IHc as [Hx Hl]. constructor; [exact Hx | by apply IHl].
    + constructor; [|by apply IHl]. intros e e' [= ->]. apply Hrefl.
  - (* ImportDeclaration *)
    destruct (ImportPass.rewriteDeclaration _ specifiers n ed) as [e1|] eqn:H1;
      [|done].
    destruct (forEach ImportPass.walk specifiers e1) as [e2|] eqn:H2; [|done].
    intros H3. apply Forall_app in IHc as [Hspecs Hsrc].
    eapply Htrans; [exact (rewriteDeclaration_length _ _ _ _ _ H1)|].
    eapply Htrans.
    + by apply (forEach_invariant R ImportPass.walk specifiers Hrefl Htrans Hspecs e1 e2).
    + by apply (Forall_inv Hsrc).
  - (* ImportSpecifier *) apply rewriteSpecifier_length.
  - (* ImportDefaultSpecifier *)
    unfold ImportPass.rewriteDefaultSpecifier. intros H. step_in H.
    unfold R. rewrite (append_length _ _ _ _ H). by eapply prepend_length.
  - (* ImportNamespaceSpecifier *)
    unfold ImportPass.rewriteNamespaceSpecifier. apply replace_length.
Qed.

Lemma import_pass_keeps_index_length_witness :
  exists ed',
    ImportPass.walk Sample.importDecl (Sample.editorOf Sample.importCell) = Some ed' /\
    length (index ed') = length (index (Sample.editorOf Sample.importCell)).
Proof.
  eexists. split.
  - vm_compute. reflexivity.
  - apply (import_pass_keeps_index_length Sample.importDecl).
    vm_compute. reflexivity.
Defined.

Lemma keeps_refl st : keeps st st.
Proof. by repeat split. Qed.

Lemma keeps_trans st1 st2 st3 : keeps st1 st2 -> keeps st2 st3 -> keeps st1 st3.
Proof.
  intros (H1 & H2 & H3) (H4 & H5 & H6). repeat split; [congruence.. | auto].
Qed.

Lemma editing_keeps (f : SourceEditor.t -> option SourceEditor.t) st st' :
  (forall e e', f e = Some e' -> length (index e') = length (index e)) ->
  ScopePass.editing f st = Some st' -> keeps st st'.
Proof.
  intros Hf. unfold ScopePass.editing. intros H. step_in H.
  injection H as <-. repeat split; simpl; [by apply Hf | done].
Qed.

Lemma forEach_length {A : Type} (f : A -> SourceEditor.t -> option SourceEditor.t)
    (l : list A) :
  (forall x e e', f x e = Some e' -> length (index e') = length (index e)) ->
  forall e e', forEach f l e = Some e' -> length (index e') = length (index e).
Proof.
  intros Hf.
  apply (forEach_invariant (fun e e' => length (index e') = length (index e)));
    [done | congruence |].
  apply Forall_forall. intros x _. apply Hf.
Qed.

Lemma wrapDeclarator_length d e e' :
  ScopePass.wrapDeclarator d e = Some e' -> length (index e') = length (index e).
Proof.
  unfold ScopePass.wrapDeclarator. intros H.
  destruct (ScopePass.hasInit d); step_in H;
    rewrite (append_length _ _ _ _ H); by eapply prepend_length.
Qed.

Lemma translateDeclaration_length i kind decls e e' :
  ScopePass.translateDeclaration i kind decls e = Some e' ->
  length (index e') = length (index e).
Proof.
  unfold ScopePass.translateDeclaration. intros H. step_in H. step_in H. step_in H.
  rewrite (append_length _ _ _ _ H).
  rewrite (forEach_length _ _ wrapDeclarator_length _ _ He0).
  by eapply replace_length.
Qed.

Lemma rewriteProperty_length q e e' :
  ScopePass.rewriteProperty q e = Some e' -> length (index e') = length (index e).
Proof.
  destruct q; try done. simpl. destruct shorthand; [apply append_length|].
  destruct (isIdentifier q2); [apply prepend_length | by intros [= ->]].
Qed.

Lemma rewriteElement_length x e e' :
  ScopePass.rewriteElement x e = Some e' -> length (index e') = length (index e).
Proof.
  destruct x as [x|]; [|done]. simpl.
  destruct (isIdentifier x); [apply prepend_length | by intros [= ->]].
Qed.

Lemma rewriteClass_length i id e e' :
  ScopePass.rewriteClass i id e = Some e' -> length (index e') = length (index e).
Proof.
  unfold ScopePass.rewriteClass. intros H. step_in H.
  rewrite (append_length _ _ _ _ H). by eapply prepend_length.
Qed.

Lemma rewriteFunction_length i id e e' :
  ScopePass.rewriteFunction i id e = Some e' -> length (index e') = length (index e).
Proof.
  unfold ScopePass.rewriteFunction. intros H. step_in H.
  rewrite (append_length _ _ _ _ H). by eapply prepend_length.
Qed.

(** X13.  The scope pass never adds or removes a node of the index and
    never replaces the wrapper body it compares parents with; and it leaves
    the flag [translatingVariableDeclaration] off when it found it off, so
    the visitors of one declaration cannot affect the patterns of the
    statements after it. *)
Theorem scope_pass_keeps_its_state n :
  forall ancestors st st',
    ScopePass.walk n ancestors st = Some st' -> keeps st st'.
Proof.
  induction n as [n IH] using node_deep_ind.
  assert (IHc : forall anc, Forall (fun c => forall st st',
                  ScopePass.walk c anc st = Some st' -> keeps st st') (children n)).
  { intros anc. eapply Forall_impl; [exact IH|]. simpl. intros c [Hc _]. apply Hc. }
  intros ancestors st st'.
  pose proof keeps_refl as Hrefl. pose proof keeps_trans as Htrans.
  destruct n; cbn [ScopePass.walk children] in *;
    try (by intros [= ->]);
    try match goal with
        | |- context [ScopePass.enter ?n ancestors] =>
            generalize (ScopePass.enter n ancestors); intros anc
        end;
    try (by apply (forEach_invariant keeps _ _ Hrefl Htrans (IHc anc))).
  - (* ExpressionStatement *) by apply (Forall_inv (IHc anc)).
  - (* VariableDeclaration *)
    destruct (ScopePass.parentIsBody anc st) as [atTop|]; [|done].
    set (tr := ScopePass.isVar kind || atTop).
    destruct (forEach _ declarations _) as [st1|] eqn:H1; [|done].
    apply (forEach_invariant keeps _ _ Hrefl Htrans (IHc anc)) in H1.
    destruct H1 as (Hl & Hb & _). simpl in Hl, Hb.
    destruct (negb tr).
    + intros [= <-]. by repeat split.
    + intros H. apply (editing_keeps _ _ _ (translateDeclaration_length _ _ _)) in H.
      destruct H as (Hl' & Hb' & Hf'). simpl in *.
      repeat split; [congruence.. | intros Ht; by specialize (Hf' Ht)].
  - (* VariableDeclarator *)
    destruct (ScopePass.walk n anc st) as [st1|] eqn:H1; [|done].
    destruct (whenSome _ init st1) as [st2|] eqn:H2; [|done].
    assert (H12 : keeps st st2).
    { eapply Htrans; [by apply (Forall_inv (IHc anc))|].
      exact (whenSome_invariant keeps _ init Hrefl
               (Forall_inv_tail (IHc anc)) _ _ H2). }
    destruct (negb _); [by intros [= <-]|].
    destruct (isIdentifier n); [|by intros [= <-]].
    intros H. eapply Htrans; [exact H12|].
    apply (editing_keeps _ _ _ (prepend_length _ _) H).
  - (* FunctionDeclaration *)
    apply editing_keeps, rewriteFunction_length.
  - (* ClassDeclaration *)
    destruct (ScopePass.walk n anc st) as [st1|] eqn:H1; [|done].
    destruct (whenSome _ superClass st1) as [st2|] eqn:H2; [|done].
    destruct (forEach _ classBody st2) as [st3|] eqn:H3; [|done].
    pose proof (IHc anc) as Hc. apply Forall_cons in Hc as [Hid Hrest].
    apply Forall_app in Hrest as [Hsup Hbody].
    assert (H13 : keeps st st3).
    { eapply Htrans; [by apply Hid|]. eapply Htrans.
      - exact (whenSome_invariant keeps _ superClass Hrefl Hsup _ _ H2).
      - exact (forEach_invariant keeps _ classBody Hrefl Htrans Hbody _ _ H3). }
    destruct (ScopePass.parentIsBody anc st3) as [[|]|]; [| by intros [= <-] | done].
    intros H. eapply Htrans; [exact H13|].
    apply (editing_keeps _ _ _ (rewriteClass_length _ _) H).
  - (* ObjectPattern *)
    destruct (forEach _ properties st) as [st1|] eqn:H1; [|done].
    assert (H01 : keeps st st1).
    { revert H1. apply (forEach_invariant keeps); [done | done |].
      eapply Forall_impl; [exact IH|]. simpl. intros c [_ Hc] s s'.
      destruct c; try done. cbn [children] in Hc.
      apply (Forall_inv (Forall_inv_tail Hc)). }
    destruct (negb _); [by intros [= <-]|].
    intros H. eapply Htrans; [exact H01|].
    apply (editing_keeps _ _ _ (forEach_length _ _ rewriteProperty_length) H).
  - (* Property *)
    pose proof (Forall_inv (IHc anc)) as Hk.
    pose proof (Forall_inv (Forall_inv_tail (IHc anc))) as Hv.
    destruct computed.
    + destruct (ScopePass.walk n1 anc st) as [st1|] eqn:H1; [|done]. intros H2.
      eapply Htrans; [by apply Hk | by apply Hv].
    + apply Hv.
  - (* ArrayPattern *)
    destruct (forEach _ elements st) as [st1|] eqn:H1; [|done].
    assert (H01 : keeps st st1).
    { revert H1. apply (forEach_invariant keeps); [done | done |].
      pose proof (IHc anc) as Hc. clear -Hc Hrefl.
      induction elements as [|[x|] l IHl]; simpl in *.
      - constructor.
      - apply Forall_cons in Hc as [Hx Hl]. constructor; [exact Hx | by apply IHl].
      - constructor; [|by apply IHl]. intros s s' [= ->]. apply Hrefl. }
    destruct (negb _); [by intros [= <-]|].
    intros H. eapply Htrans; [exact H01|].
    apply (editing_keeps _ _ _ (forEach_length _ _ rewriteElement_length) H).
  - (* ImportDeclaration *)
    destruct (forEach _ specifiers st) as [st1|] eqn:H1; [|done]. intros H2.
    pose proof (IHc anc) as Hc. apply Forall_app in Hc as [Hspecs Hsrc].
    eapply Htrans.
    + exact (forEach_invariant keeps _ specifiers Hrefl Htrans Hspecs _ _ H1).
    + by apply (Forall_inv Hsrc).
Qed.

Lemma scope_pass_keeps_its_state_witness :
  exists st',
    ScopePass.walk Sample.blockBody [] Sample.blockState = Some st' /\
    keeps Sample.blockState st'.
Proof.
  eexists. split.
  - vm_compute. reflexivity.
  - apply (scope_pass_keeps_its_state Sample.blockBody []).
    vm_compute. reflexivity.
Defined.

Lemma forEach_fails {A S : Type} (f : A -> S -> option S) (l : list A) (x : A) :
  x ∈ l -> (forall s, f x s = None) -> forall s, forEach f l s = None.
Proof.
  intros Hin Hx. induction l as [|y l IH]; intros s; [by apply elem_of_nil in Hin|].
  simpl. apply elem_of_cons in Hin as [<-|Hin]; [by rewrite Hx|].
  destruct (f y s); [by apply IH | done].
Qed.

(** X14.  An array pattern with a hole, as in [var [a, , b] = xs], makes the
    scope pass throw when the enclosing declaration is being translated: the
    visitor reads [e.type] of every element, also of a hole.  Outside a
    translated declaration the same pattern is walked without an edit. *)
Theorem array_pattern_with_hole_throws i elements ancestors st :
  forallb plainElement elements = true ->
  None ∈ elements ->
  ScopePass.walk (ArrayPattern i elements) ancestors st =
    if ScopePass.translatingVariableDeclaration st then None else Some st.
Proof.
  intros Hplain Hhole. cbn [ScopePass.walk].
  generalize (ScopePass.enter (ArrayPattern i elements) ancestors). intros anc.
  assert (Hwalk : forEach (whenSome (fun child st => ScopePass.walk child anc st))
                    elements st = Some st).
  { clear Hhole. induction elements as [|[x|] l IH]; simpl in *; [done|..].
    - apply andb_true_iff in Hplain as [Hx Hl]. destruct x; try done.
      simpl. by apply IH.
    - by apply IH. }
  rewrite Hwalk. destruct (ScopePass.translatingVariableDeclaration st); [|done].
  simpl. unfold ScopePass.editing.
  by rewrite (forEach_fails ScopePass.rewriteElement elements None Hhole).
Qed.

Lemma array_pattern_with_hole_throws_witness :
  ScopePass.walk
    (ArrayPattern (Sample.at_ 12 4 11)
       [Some (Identifier (Sample.at_ 13 5 6) "a"); None;
        Some (Identifier (Sample.at_ 14 9 10) "b")])
    [] (ScopePass.setTranslating Sample.pairState true) = None.
Proof.
  apply (array_pattern_with_hole_throws (Sample.at_ 12 4 11)
           [Some (Identifier (Sample.at_ 13 5 6) "a"); None;
            Some (Identifier (Sample.at_ 14 9 10) "b")]
           [] (ScopePass.setTranslating Sample.pairState true)).
  - reflexivity.
  - apply elem_of_cons. right. apply elem_of_cons. by left.
Defined.

End PassInvariants.

(** * Translated declarations with any declarators *)

Section TranslatedDeclarations.

Import SourceEditor.




















End TranslatedDeclarations.

(** * Facts about the tensor methods *)

Section TensorMethodFacts.

Import TensorMethods.
Local Open Scope Z_scope.

Lemma squeezeShape_cons d s :
  squeezeShape (d :: s) = if decide (1 < d) then d :: squeezeShape s
                          else squeezeShape s.
Proof. unfold squeezeShape. rewrite filter_cons. by destruct (decide (1 < d)). Qed.

Lemma squeezeShape_above_one s : Forall (fun d => 1 < d) (squeezeShape s).
Proof.
  induction s as [|d s IH]; [constructor|].
  rewrite squeezeShape_cons. destruct (decide (1 < d)); [by constructor | done].
Qed.

Lemma elementCount_positive s : Forall (fun d => 1 < d) s -> 1 <= elementCount s.
Proof.
  induction 1 as [|d s Hd _ IH]; simpl; [lia | nia].
Qed.

(** X15.  [squeeze] asks [reshape] for the dimensions greater than one, so
    it drops dimensions of size 0 along with those of size 1: the shape it
    asks for holds as many elements as the tensor exactly when the tensor
    has no dimension of size 0. *)
Theorem squeeze_keeps_count_iff_no_empty_dimension {T X E : Type}
    (b : Backend T X E) (t : T) :
  Forall (fun d => 0 <= d) (shape b t) ->
  exists newShape,
    squeeze b t = lift (reshape b t (Some <$> newShape)) /\
    Forall (fun d => 1 < d) newShape /\
    (elementCount newShape = elementCount (shape b t) <->
     Forall (fun d => d <> 0) (shape b t)).
Proof.
  intros Hnonneg. exists (squeezeShape (shape b t)).
  split; [done|]. split; [apply squeezeShape_above_one|].
  induction Hnonneg as [|d s Hd Hs IH]; [by split; [constructor|]|].
  pose proof (elementCount_positive _ (squeezeShape_above_one s)) as Hpos.
  rewrite squeezeShape_cons, Forall_cons.
  change (elementCount (d :: s)) with (d * elementCount s).
  destruct (decide (1 < d)) as [Hbig|Hsmall].
  - change (elementCount (d :: squeezeShape s))
      with (d * elementCount (squeezeShape s)).
    rewrite <- IH. split.
    + intros Heq. split; [lia|]. apply (Z.mul_reg_l _ _ d); [lia | done].
    + by intros [_ ->].
  - assert (d = 0 \/ d = 1) as [-> | ->] by lia.
    + split; [lia | by intros [? _]].
    + rewrite <- IH. split; [intros ->; split; [done | lia] | intros [_ ->]; lia].
Qed.

Lemma squeeze_keeps_count_iff_no_empty_dimension_witness :
  exists newShape,
    squeeze ShapeOnly.backend [2; 1; 3]
      = lift (ShapeOnly.reshape [2; 1; 3] (Some <$> newShape)) /\
    Forall (fun d => 1 < d) newShape /\
    (elementCount newShape = elementCount [2; 1; 3] <->
     Forall (fun d => d <> 0) [2; 1; 3]).
Proof.
  apply (squeeze_keeps_count_iff_no_empty_dimension ShapeOnly.backend [2; 1; 3]).
  simpl. repeat constructor; lia.
Defined.

Lemma rangeJS_prefix (limit k : nat) :
  (k <= limit)%nat ->
  foldl (fun r i => <[i := Some (Z.of_nat i)]> r)
        (replicate limit None) (seq 0 k)
  = ((fun i => Some (Z.of_nat i)) <$> seq 0 k) ++ replicate (limit - k) None.
Proof.
  induction k as [|k IH]; intros Hk.
  - simpl. by rewrite Nat.sub_0_r.
  - rewrite seq_S, foldl_app, IH by lia. cbn [foldl].
    rewrite fmap_app. cbn [fmap list_fmap]. rewrite <- app_assoc.
    rewrite insert_app_r_alt by (rewrite length_fmap, length_seq; lia).
    rewrite length_fmap, length_seq, Nat.sub_diag.
    replace (limit - k)%nat with (S (limit - S k)) by lia. done.
Qed.

(** X16.  [rangeJS(limit)] is the array [0, 1, ..., limit - 1] without a
    hole, so a reduction called without axes reduces over every axis of the
    tensor, in increasing order. *)
Theorem reduce_defaults_to_every_axis {T X E : Type} (b : Backend T X E)
    (limit : nat) (op : T -> list (option Z) -> bool -> E + T)
    (t : T) (keepDims : bool) :
  rangeJS limit = (fun i => Some (Z.of_nat i)) <$> seq 0 limit /\
  reduce b op t None keepDims
    = reduce b op t (Some (Z.of_nat <$> seq 0 (length (shape b t)))) keepDims.
Proof.
  assert (Hrange : forall n,
            rangeJS n = (fun i => Some (Z.of_nat i)) <$> seq 0 n).
  { intros n. unfold rangeJS. rewrite rangeJS_prefix by done.
    by rewrite Nat.sub_diag, app_nil_r. }
  split; [apply Hrange|].
  unfold reduce. by rewrite Hrange, <- list_fmap_compose.
Qed.

Lemma markDim_Some rank dim ta ta' :
  markDim rank dim ta = Some ta' <->
  (- rank <= dim < rank) /\ ta' = <[Z.to_nat (axisOf rank dim) := 1]> ta.
Proof.
  unfold markDim.
  destruct (bool_decide (- rank <= dim)) eqn:H1;
    destruct (bool_decide (dim < rank)) eqn:H2; simpl;
    try apply bool_decide_eq_true in H1; try apply bool_decide_eq_false in H1;
    try apply bool_decide_eq_true in H2; try apply bool_decide_eq_false in H2;
    split; try (intros [= <-]); try (intros [? ->]); try done; lia.
Qed.

Lemma marks_defined_iff rank dims ta :
  is_Some (forEach (markDim rank) dims ta) <->
  Forall (fun dim => - rank <= dim < rank) dims.
Proof.
  revert ta. induction dims as [|dim dims IH]; intros ta; simpl.
  - split; [constructor | by eexists].
  - rewrite Forall_cons. destruct (markDim rank dim ta) as [ta'|] eqn:Hm.
    + apply markDim_Some in Hm as [Hr _]. rewrite IH. tauto.
    + split; [by intros [? ?]|]. intros [Hr _]. exfalso.
      assert (Hs : is_Some (markDim rank dim ta)).
      { eexists. apply markDim_Some. by split. }
      rewrite Hm in Hs. by destruct Hs.
Qed.

(** X17.  The mask that [reverse] builds exists exactly when every entry
    [dim] of [dims] satisfies [-rank <= dim < rank]; any other entry fails
    the assertion, whatever the entries before and after it. *)
Theorem reverse_mask_defined_iff_in_range (rank : nat) (dims : list Z) :
  is_Some (reverseMask rank dims) <->
  Forall (fun dim => - Z.of_nat rank <= dim < Z.of_nat rank) dims.
Proof. apply marks_defined_iff. Qed.

Lemma marks_lookup rank dims ta ta' :
  Z.of_nat (length ta) = rank ->
  forEach (markDim rank) dims ta = Some ta' ->
  length ta' = length ta /\
  forall i : nat, (i < length ta)%nat ->
    ta' !! i = if decide (Exists (fun dim => axisOf rank dim = Z.of_nat i) dims)
               then Some 1 else ta !! i.
Proof.
  revert ta. induction dims as [|dim dims IH]; intros ta Hlen; simpl.
  - intros [= <-]. by split.
  - destruct (markDim rank dim ta) as [ta1|] eqn:Hm; [|done].
    apply markDim_Some in Hm as [Hr ->]. intros Hrest.
    apply IH in Hrest as [Hl Hlook]; [|by rewrite length_insert].
    rewrite length_insert in Hl, Hlook. split; [done|]. intros i Hi.
    rewrite (Hlook i Hi).
    destruct (decide (Exists _ dims)) as [Hex|Hno].
    + rewrite decide_True; [done | by apply Exists_cons_tl].
    + destruct (decide (axisOf rank dim = Z.of_nat i)) as [Heq|Hne].
      * rewrite decide_True by (by apply Exists_cons_hd).
        rewrite Heq, Nat2Z.id. by apply list_lookup_insert_eq.
      * rewrite decide_False.
        -- apply list_lookup_insert_ne. intros Hi'. apply Hne.
           rewrite <- Hi'. symmetry. apply Z2Nat.id. unfold axisOf.
           destruct (decide (0 <= dim)); lia.
        -- intros Hex. apply Exists_cons in Hex as [?|?]; done.
Qed.

(** X18.  When the mask exists it has one entry per axis, and the entry of
    axis [i] is 1 exactly when some [dim] of [dims] denotes it, as [i] or as
    [i - rank]; all other entries are 0.  So neither the order of [dims] nor
    a repeated entry changes the mask. *)
Theorem reverse_mask_marks_the_axes (rank : nat) (dims : list Z) (ta : list Z) :
  reverseMask rank dims = Some ta ->
  length ta = rank /\
  forall i : nat, (i < rank)%nat ->
    ta !! i = Some (if decide (Exists (fun dim =>
                                 axisOf (Z.of_nat rank) dim = Z.of_nat i) dims)
                    then 1 else 0).
Proof.
  intros Hmask. apply marks_lookup in Hmask as [Hl Hlook];
    [|by rewrite length_replicate].
  rewrite length_replicate in Hl, Hlook. split; [done|]. intros i Hi.
  rewrite (Hlook i Hi). destruct (decide _); [done|].
  by apply lookup_replicate_2.
Qed.

Lemma reverse_mask_marks_the_axes_witness :
  reverseMask 3 [-1; 0; 2] = Some [1; 0; 1] /\
  (length [1; 0; 1] = 3%nat /\
   forall i : nat, (i < 3)%nat ->
     [1; 0; 1] !! i
     = Some (if decide (Exists (fun dim => axisOf 3 dim = Z.of_nat i) [-1; 0; 2])
             then 1 else 0)).
Proof.
  split; [reflexivity|].
  apply (reverse_mask_marks_the_axes 3 [-1; 0; 2] [1; 0; 1]). reflexivity.
Defined.

(** X19.  [t.reverse()] without arguments uses [dims = [-1]]; it fails
    its assertion exactly when [t] is a scalar, which has no last axis. *)
Theorem reverse_default_fails_iff_scalar {T X E : Type} (b : Backend T X E)
    (t : T) :
  reverse b t None = inl AssertionFailed <-> rank b t = 0.
Proof.
  unfold reverse, rank, Tensor.rank, reverseMask. cbn [default forEach].
  destruct (shape b t) as [|d s]; cbn [length].
  - by split.
  - unfold markDim.
    rewrite bool_decide_eq_true_2, bool_decide_eq_true_2 by lia. cbn [andb].
    split; [|lia]. unfold andThen, lift.
    destruct (colocate b t _ _) as [e|dimsT]; [done|].
    by destruct (opsReverse b t dimsT).
Qed.

(** X20.  The dot product of a scalar and a vector, in either order, never
    returns a tensor: the assertion that compares the vector's length with
    [shape[0]] of the scalar, which is [undefined], fails (unless [reshape]
    threw before it). *)
Theorem dot_of_scalar_and_vector_fails {T X E : Type} (b : Backend T X E)
    (t : T) (x : X) (xx : T) :
  colocate b t x None = inr xx ->
  (rank b t = 0 /\ rank b xx = 1) \/ (rank b t = 1 /\ rank b xx = 0) ->
  dot b t x = inl AssertionFailed \/
  exists e, dot b t x = inl (Raised (Tensor.OpFailed e)).
Proof.
  intros Hxx Hranks. unfold dot. rewrite Hxx. cbn [lift andThen].
  unfold dotLeft, dotRight, dim, Tensor.dim. unfold rank, Tensor.rank in *.
  destruct Hranks as [[Ht Hx]|[Ht Hx]].
  - rewrite decide_True by done.
    destruct (reshape b t _) as [e|left_]; cbn [lift andThen]; [by right; eexists|].
    rewrite decide_False, decide_True by lia.
    destruct (shape b t) as [|? ?]; [|simpl in Ht; lia].
    destruct (shape b xx) as [|n [|? ?]]; [simpl in Hx; lia | | simpl in Hx; lia].
    by left.
  - rewrite decide_False, decide_True by lia.
    destruct (shape b xx) as [|? ?]; [|simpl in Hx; lia].
    destruct (shape b t) as [|n [|? ?]]; [simpl in Ht; lia | | simpl in Ht; lia].
    by left.
Qed.

Lemma dot_of_scalar_and_vector_fails_witness :
  dot ShapeOnly.backend [] [3] = inl AssertionFailed \/
  exists e, dot ShapeOnly.backend [] [3] = inl (Raised (Tensor.OpFailed e)).
Proof.
  apply (dot_of_scalar_and_vector_fails ShapeOnly.backend [] [3] [3]).
  - reflexivity.
  - left. split; reflexivity.
Defined.

(** X21.  When [dot] returns a tensor, both operands have rank at most 2,
    a vector operand agrees with the other operand on the contracted
    dimension, a matrix operand is multiplied as it is, and the result is
    the product reshaped to the rows of a matrix on the left followed by the
    columns of a matrix on the right. *)
Theorem dot_returns_up_to_rank_two {T X E : Type} (b : Backend T X E)
    (t : T) (x : X) (r : T) :
  dot b t x = inr r ->
  exists xx left_ right_ product,
    colocate b t x None = inr xx /\
    rank b t <= 2 /\ rank b xx <= 2 /\
    (rank b t = 1 -> dim b t 0 = dim b xx 0) /\
    (rank b xx = 1 -> dim b t (rank b t - 1) = dim b xx 0) /\
    (rank b t = 2 -> left_ = t) /\
    (rank b xx = 2 -> right_ = xx) /\
    matmulMethod b left_ (ofTensor b right_) = inr product /\
    reshape b product (dotShape b t xx) = inr r.
Proof.
  unfold dot. destruct (colocate b t x None) as [e|xx]; [done|].
  cbn [lift andThen]. intros Hdot. exists xx.
  assert (Hl : exists left_ lShape,
            dotLeft b t xx = inr (Some (left_, lShape)) /\
            rank b t <= 2 /\
            (rank b t = 1 -> dim b t 0 = dim b xx 0) /\
            (rank b t = 2 -> left_ = t) /\
            lShape = (if decide (rank b t = 2) then [dim b t 0] else [])).
  { unfold dotLeft in *. pose proof (Zle_0_nat (length (shape b t))) as Hpos.
    fold (Tensor.rank (shape b) t) in Hpos. fold (rank b t) in Hpos.
    destruct (decide (rank b t = 0)) as [H0|H0].
    - destruct (reshape b t _) as [e|left_]; [done|]. cbn [lift andThen].
      exists left_, []. repeat split; [lia | lia | lia |].
      by rewrite decide_False by lia.
    - destruct (decide (rank b t = 1)) as [H1|H1].
      + destruct (bool_decide _) eqn:Ha; [|done]. apply bool_decide_eq_true in Ha.
        cbn [assert andThen] in *.
        destruct (reshape b t _) as [e|left_]; [done|]. cbn [lift andThen].
        exists left_, []. repeat split; [lia | done | lia |].
        by rewrite decide_False by lia.
      + destruct (decide (rank b t = 2)) as [H2|H2].
        * exists t, [dim b t 0]. repeat split; [lia | lia].
        * cbn [andThen] in Hdot. by destruct (dotRight b t xx) as [?|[[? ?]|]]. }
  destruct Hl as (left_ & lShape & Hleft & Ht & Hta & Htl & ->).
  rewrite Hleft in Hdot. cbn [andThen] in Hdot.
  assert (Hr : exists right_ rShape,
            dotRight b t xx = inr (Some (right_, rShape)) /\
            rank b xx <= 2 /\
            (rank b xx = 1 -> dim b t (rank b t - 1) = dim b xx 0) /\
            (rank b xx = 2 -> right_ = xx) /\
            rShape = (if decide (rank b xx = 2) then [dim b xx 1] else [])).
  { unfold dotRight in *.
    destruct (decide (rank b xx = 0)) as [H0|H0].
    - destruct (reshape b xx _) as [e|right_]; [done|]. cbn [lift andThen].
      exists right_, []. repeat split; [lia | lia | lia |].
      by rewrite decide_False by lia.
    - destruct (decide (rank b xx = 1)) as [H1|H1].
      + destruct (bool_decide _) eqn:Ha; [|done]. apply bool_decide_eq_true in Ha.
        cbn [assert andThen] in *.
        destruct (reshape b xx _) as [e|right_]; [done|]. cbn [lift andThen].
        exists right_, []. repeat split; [lia | done | lia |].
        by rewrite decide_False by lia.
      + destruct (decide (rank b xx = 2)) as [H2|H2].
        * exists xx, [dim b xx 1]. rewrite H2. repeat split; [lia | lia].
        * done. }
  destruct Hr as (right_ & rShape & Hright & Hx & Hxa & Hxr & ->).
  rewrite Hright in Hdot. cbn [andThen] in Hdot.
  exists left_, right_.
  destruct (matmulMethod b left_ (ofTensor b right_)) as [e|product]; [done|].
  cbn [andThen] in Hdot. exists product.
  split; [done|]. do 6 (split; [done|]). split; [done|].
  unfold dotShape. unfold lift in Hdot.
  destruct (reshape b product _) as [e|r']; [done | by injection Hdot as ->].
Qed.

Lemma dot_returns_up_to_rank_two_witness :
  exists xx left_ right_ product,
    colocate ShapeOnly.backend [2; 3] [3] None = inr xx /\
    rank ShapeOnly.backend [2; 3] <= 2 /\ rank ShapeOnly.backend xx <= 2 /\
    (rank ShapeOnly.backend [2; 3] = 1 ->
     dim ShapeOnly.backend [2; 3] 0 = dim ShapeOnly.backend xx 0) /\
    (rank ShapeOnly.backend xx = 1 ->
     dim ShapeOnly.backend [2; 3]
       (rank ShapeOnly.backend [2; 3] - 1) = dim ShapeOnly.backend xx 0) /\
    (rank ShapeOnly.backend [2; 3] = 2 -> left_ = [2; 3]) /\
    (rank ShapeOnly.backend xx = 2 -> right_ = xx) /\
    matmulMethod ShapeOnly.backend left_ (ofTensor ShapeOnly.backend right_)
      = inr product /\
    reshape ShapeOnly.backend product (dotShape ShapeOnly.backend [2; 3] xx)
      = inr [2].
Proof.
  apply (dot_returns_up_to_rank_two ShapeOnly.backend [2; 3] [3] [2]).
  reflexivity.
Defined.

(** X22.  [softmaxCE] never reshapes: it asserts that the logits have rank
    2, so the [logSoftmax] it calls always takes the direct path of
    [softmaxHelper].  Its outcome is the same with any other [reshape]. *)
Theorem softmaxCE_never_reshapes {T X E : Type} (b : Backend T X E)
    (reshape' : T -> list (option Z) -> E + T) (t : T) (labels : X) :
  softmaxCE (withReshape b reshape') t labels = softmaxCE b t labels.
Proof.
  unfold softmaxCE. cbn [withReshape colocate shape reshape logSoftmax].
  destruct (colocate b t labels None) as [e|labelsT]; [done|].
  cbn [lift andThen]. unfold rank. cbn [withReshape shape].
  destruct (bool_decide (Tensor.rank (shape b) labelsT = 2)); [|done].
  cbn [assert andThen].
  destruct (bool_decide (Tensor.rank (shape b) t = 2)) eqn:Hrank; [|done].
  apply bool_decide_eq_true in Hrank. cbn [assert andThen].
  unfold Tensor.softmax, Tensor.softmaxHelper. cbn [default].
  destruct (decide (-1 ≠ -1)) as [Hne|_]; [by destruct Hne|].
  destruct (decide (Tensor.rank (shape b) t = 2)); [|done].
  destruct (decide (-1 ≠ -1)) as [Hne|_]; [by destruct Hne|].
  reflexivity.
Qed.

End TensorMethodFacts.
